(** * voro3d: the Voronoi diagram driver and its face extraction

    A shallow embedding of [src/voronoi.cpp] (both revisions of [voronoi]
    that the file holds) and of [dirVector.h] / [dirVector.cpp].

    Conventions of the embedding:
    - a C++ [double] is an exact rational ([Q]); NaN, infinities and rounding
      are outside the model;
    - a C++ [int] is a [Z]; the conversion of a [double] to [int] is defined
      only inside the 32-bit range, and the vertex numbers and slots of a cell
      are far from the bounds of the type;
    - [std::vector] and the rows of the voro++ edge table are lists indexed by
      [Z]; an access outside the list is undefined behaviour and is reported
      as the fault [OutOfBounds];
    - the unbounded [while] loop of the face walk takes a fuel argument and
      reports [OutOfFuel] when it is used up;
    - the calls into voro++, libm and [std::to_string] are fields of the
      record [externals]: their code is not part of this repository. *)

From Stdlib Require Import ZArith QArith Qround Qabs Qminmax Lqa String Ascii.
From stdpp Require Import base tactics list list_numbers strings pretty.

Set Default Proof Using "All".
Local Open Scope Z_scope.

(** * Part I: the program *)

(** ** Faults and the fault monad *)

Inductive fault := OutOfBounds | OutOfFuel | IntOverflow.

Inductive res (A : Type) : Type :=
| Ok (a : A)
| Fault (f : fault).
Arguments Ok {A} a.
Arguments Fault {A} f.

Definition bind {A B} (m : res A) (k : A -> res B) : res B :=
  match m with
  | Ok a => k a
  | Fault f => Fault f
  end.

Notation "'let*' x ':=' m 'in' k" := (bind m (fun x => k))
  (at level 10, x pattern, m at level 100, k at level 200).

(** An access that C++ leaves undefined. *)
Definition ub {A} (o : option A) : res A :=
  match o with
  | Some a => Ok a
  | None => Fault OutOfBounds
  end.

(** ** Vectors and tables indexed by a C++ [int] *)

Definition lookupZ {A} (l : list A) (i : Z) : option A :=
  if bool_decide (0 <= i) then l !! Z.to_nat i else None.

Definition table := list (list Z).

(** [ed[v][s]] *)
Definition get (t : table) (v s : Z) : option Z :=
  match lookupZ t v with
  | Some row => lookupZ row s
  | None => None
  end.

(** [ed[v][s] = x] *)
Definition set (t : table) (v s x : Z) : option table :=
  match lookupZ t v with
  | Some row =>
      match lookupZ row s with
      | Some _ => Some (<[Z.to_nat v := <[Z.to_nat s := x]> row]> t)
      | None => None
      end
  | None => None
  end.

(** ** The voro++ cell as the driver reads it

    [p] vertices; [nu[v]] the order of vertex [v]; row [ed[v]] holds the
    [nu[v]] neighbours of [v] followed by, for each of them, the slot at which
    [v] sits in the neighbour's own row. *)

Record voronoicell := {
  p : Z;
  nu : list Z;
  ed : table
}.

(** Modelled from the spec: voro++'s [cycle_up], "the next slot in cyclic
    order" at vertex [pv]; its body is in voro++, not in this repository. *)
Definition cycle_up (c : voronoicell) (a pv : Z) : res Z :=
  let* n := ub (lookupZ (nu c) pv) in
  Ok (if a =? n - 1 then 0 else a + 1).

(** ** Face extraction (voronoi.cpp, lines 125-165 and 310-350) *)

Record walk_state := {
  ws_ed : table;                 (* vc.ed, negated in place as edges are used *)
  ws_out : string;               (* polyhedralsurface *)
  ws_marks : list (Z * Z);       (* instrumentation: the (vertex, slot) marked, in order *)
  ws_tris : list (Z * Z * Z)     (* instrumentation: the (ii, kk, mm) emitted, in order *)
}.

(** [mm = vc.ed[v][s]; vc.ed[v][s] = -1 - mm;] *)
Definition mark (v s : Z) (st : walk_state) : res (Z * walk_state) :=
  let* mm := ub (get (ws_ed st) v s) in
  let* t := ub (set (ws_ed st) v s (-1 - mm)) in
  Ok (mm, {| ws_ed := t; ws_out := ws_out st;
             ws_marks := ws_marks st ++ [(v, s)]; ws_tris := ws_tris st |}).

Definition header : string := "POLYHEDRALSURFACE(".

(** The ring text built at lines 145-149 and 330-334 from the texts of four
    vertices. *)
Definition polygon_text (a b c d : string) : string :=
  "((" +:+ a +:+ ", " +:+ b +:+ ", " +:+ c +:+ ", " +:+ d +:+ "))".

(** Lines 151-154: the separator is left out while the text is still the
    bare header. *)
Definition append_polygon (out polygon : string) : string :=
  if String.eqb out header then out +:+ polygon
  else out +:+ (", " +:+ polygon).

Section Extraction.
(** [P] is the element type of [points]: [std::string] in the first
    revision, [DirVector] (printed by [point()]) in the second. *)
Context {P : Type} (show : P -> string).
Variable c : voronoicell.
Variable points : list P.

(** The loop [while ( mm != ii )]. *)
Fixpoint face_walk (fuel : nat) (ii kk ll mm : Z) (st : walk_state)
  : res walk_state :=
  if mm =? ii then Ok st
  else
    match fuel with
    | O => Fault OutOfFuel
    | S fuel' =>
        let* nk := ub (lookupZ (nu c) kk) in
        let* r := ub (get (ws_ed st) kk (nk + ll)) in
        let* nn := cycle_up c r mm in
        let* pi := ub (lookupZ points ii) in
        let* pk := ub (lookupZ points kk) in
        let* pm := ub (lookupZ points mm) in
        let* pl := ub (lookupZ points ii) in
        let polygon := polygon_text (show pi) (show pk) (show pm) (show pl) in
        let st1 := {| ws_ed := ws_ed st;
                      ws_out := append_polygon (ws_out st) polygon;
                      ws_marks := ws_marks st;
                      ws_tris := ws_tris st ++ [(ii, kk, mm)] |} in
        let* (mm', st2) := mark mm nn st1 in
        face_walk fuel' ii mm nn mm' st2
    end.

(** The body of the [jj] loop. *)
Definition face_start (fuel : nat) (ii jj : Z) (st : walk_state)
  : res walk_state :=
  let* kk := ub (get (ws_ed st) ii jj) in
  if 0 <=? kk then
    let* (_, st1) := mark ii jj st in
    let* ni := ub (lookupZ (nu c) ii) in
    let* r := ub (get (ws_ed st1) ii (ni + jj)) in
    let* ll := cycle_up c r kk in
    let* (mm, st2) := mark kk ll st1 in
    face_walk fuel ii kk ll mm st2
  else Ok st.

(** A counted [for] loop whose body may fault. *)
Fixpoint for_each {S} (l : list Z) (body : Z -> S -> res S) (s : S) : res S :=
  match l with
  | [] => Ok s
  | i :: l' => let* s' := body i s in for_each l' body s'
  end.

(** [for ( jj = 0; jj < vc.nu[ii]; jj++ )] *)
Definition vertex_faces (fuel : nat) (ii : Z) (st : walk_state)
  : res walk_state :=
  let* ni := ub (lookupZ (nu c) ii) in
  for_each (seqZ 0 ni) (face_start fuel ii) st.

Definition init_walk : walk_state :=
  {| ws_ed := ed c; ws_out := header; ws_marks := []; ws_tris := [] |}.

(** [for ( ii = 1; ii < vc.p; ii++ )], from the bare header. *)
Definition extract_faces (fuel : nat) : res walk_state :=
  for_each (seqZ 1 (p c - 1)) (vertex_faces fuel) init_walk.
End Extraction.

(** Lines 125-165 and 310-350: the text of one cell. *)
Definition polyhedral_surface {P} (show : P -> string) (c : voronoicell)
    (pts : list P) (fuel : nat) : res string :=
  let* st := extract_faces show c pts fuel in
  Ok (ws_out st +:+ ")").

(** ** dirVector.h / dirVector.cpp *)

Record DirVector := mkDirVector { i : Q; j : Q; k : Q }.

(** [DirVector::DirVector()] *)
Definition DirVector0 : DirVector := mkDirVector 0%Q 0%Q 0%Q.

(** [operator-] *)
Definition vsub (a dir : DirVector) : DirVector :=
  mkDirVector (i a - i dir)%Q (j a - j dir)%Q (k a - k dir)%Q.

(** [operator*], the cross product *)
Definition vcross (a dir : DirVector) : DirVector :=
  mkDirVector (j a * k dir - j dir * k a)%Q
              (k a * i dir - k dir * i a)%Q
              (i a * j dir - i dir * j a)%Q.

(** [operator=] *)
Definition vassign (self dir : DirVector) : DirVector :=
  mkDirVector (i dir) (j dir) (k dir).

(** [dot], as written at dirVector.cpp line 42 *)
Definition dot (a b : DirVector) : Q :=
  ((i a * i b) + (j a + j b) + (k a + k b))%Q.

(** The dot product of the specification. *)
Definition dot_product (a b : DirVector) : Q :=
  (i a * i b + j a * j b + k a * k b)%Q.

(** ** Code outside the repository

    libm, [std::to_string] and the voro++ calls of the driver.  A particle is
    named by the id the driver gives to [con.put]. *)

Record container := {
  conXMin : Q; conXMax : Q;
  conYMin : Q; conYMax : Q;
  conZMin : Q; conZMax : Q;
  nx : Z; ny : Z; nz : Z
}.

Definition particle := (Q * Q * Q)%type.

Record externals := {
  cbrt : Q -> Q;
  to_string : Q -> string;
  (* the particles [c_loop_order] visits after the calls to [put], in order *)
  c_loop_order : container -> list particle -> list Z;
  (* [clo.pos] *)
  pos : container -> list particle -> Z -> particle;
  (* [con.compute_cell]: the cell, or [None] when it returns false *)
  compute_cell : container -> list particle -> Z -> option voronoicell;
  (* [vc.vertices( i, j, k, vertices )] *)
  vertices : voronoicell -> particle -> list Q
}.

(** [DirVector::magnitude]; [sqrt] is libm's. *)
Definition magnitude (sqrt : Q -> Q) (a : DirVector) : Q :=
  sqrt (i a ^ 2 + j a ^ 2 + k a ^ 2)%Q.

(** [DirVector::point] *)
Definition point (L : externals) (a : DirVector) : string :=
  to_string L (i a) +:+ " " +:+ to_string L (j a) +:+ " " +:+ to_string L (k a).

(** [angle_between]; [acos] and [sqrt] are libm's. *)
Definition angle_between (acos sqrt : Q -> Q) (a b : DirVector) : Q :=
  acos (dot a b / (magnitude sqrt a * magnitude sqrt b))%Q.

(** ** Container sizing (voronoi.cpp, lines 68-92 and 244-268) *)

Definition Qltb (x y : Q) : bool := negb (Qle_bool y x).

Definition setThreshold (x : Q) : Q :=
  let threshold : Q := 2%Q in
  if Qltb x threshold then threshold else x.

(** Modelled from the spec: [Rcpp::min] and [Rcpp::max], the bounds of the
    axis-aligned bounding box; their bodies are in Rcpp. *)
Definition vec_min (x : list Q) : Q :=
  match x with
  | [] => 0%Q
  | a :: t => foldl (λ m cur, if Qltb cur m then cur else m) a t
  end.

Definition vec_max (x : list Q) : Q :=
  match x with
  | [] => 0%Q
  | a :: t => foldl (λ m cur, if Qltb m cur then cur else m) a t
  end.

(** [xLength], [yLength], [zLength] *)
Definition axisLength (x : list Q) : Q := setThreshold (vec_max x - vec_min x)%Q.

(** [conMarginX], [conMarginY], [conMarginZ] *)
Definition conMargin (length containerRatio : Q) : Q :=
  (length * (containerRatio - 1) / 2)%Q.

Definition conMin (x : list Q) (containerRatio : Q) : Q :=
  (vec_min x - conMargin (axisLength x) containerRatio)%Q.

Definition conMax (x : list Q) (containerRatio : Q) : Q :=
  (vec_max x + conMargin (axisLength x) containerRatio)%Q.

(** ** Conversions to integer types *)

Definition INT_MAX : Z := 2147483647.
Definition INT_MIN : Z := -2147483648.

(** The integer a [double] truncates to. *)
Definition Qtrunc (q : Q) : Z := if Qltb q 0%Q then Qceiling q else Qfloor q.

(** [int( q )]: undefined when the truncated value is not an [int]. *)
Definition double_to_int (q : Q) : res Z :=
  let t := Qtrunc q in
  if (INT_MIN <=? t) && (t <=? INT_MAX) then Ok t else Fault IntOverflow.

(** [( R_xlen_t ) q], a 64-bit signed integer. *)
Definition double_to_xlen (q : Q) : res Z :=
  let t := Qtrunc q in
  if (- 2 ^ 63 <=? t) && (t <? 2 ^ 63) then Ok t else Fault IntOverflow.

(** An [R_xlen_t] passed where voro++ takes an [int]. *)
Definition xlen_to_int (z : Z) : Z := (z + 2 ^ 31) mod 2 ^ 32 - 2 ^ 31.

(** ** The driver *)

(** An element of the [Rcpp::StringVector] that [voronoi] returns. *)
Inductive entry := Str (s : string) | NA_STRING.

Inductive outcome :=
| Stopped (msg : string)            (* [Rcpp::stop] *)
| Returned (cellGeometry : list entry)
| Undefined (f : fault).

Record loop_state (P : Type) := {
  cellGeometry : list entry;
  cGCount : Z;
  points : list P
}.
Arguments cellGeometry {P} _.
Arguments cGCount {P} _.
Arguments points {P} _.

(** [cellGeometry[ at ] = e] *)
Definition store (cg : list entry) (at_ : Z) (e : entry) : option (list entry) :=
  match lookupZ cg at_ with
  | Some _ => Some (<[Z.to_nat at_ := e]> cg)
  | None => None
  end.

(** The loop over [vCounter], which reads three coordinates per round. *)
Fixpoint push_points {P} (mk : Q -> Q -> Q -> P) (vs : list Q) (pts : list P)
  : res (list P) :=
  match vs with
  | [] => Ok pts
  | x :: y :: z :: rest => push_points mk rest (pts ++ [mk x y z])
  | _ => Fault OutOfBounds
  end.

Definition particles (x y z : list Q) : list particle :=
  zip (zip x y) z.

Definition lenZ {A} (l : list A) : Z := Z.of_nat (length l).

(** Lines 54-63 and 230-239. *)
Definition check_input (x y z : list Q) (containerRatio : Q) : option string :=
  let n := lenZ x in
  if negb (n =? lenZ y) || negb (n =? lenZ z) then
    Some "Lengths of coordinate vectors are not equal."
  else if n <? 2 then
    Some "Cannot generate cells if points are less than 2."
  else if Qltb containerRatio 1%Q then
    Some "Invalid containerRatio: Value must not be less than 1."
  else None.

Definition finish (r : res (list entry)) : outcome :=
  match r with
  | Ok cg => Returned cg
  | Fault f => Undefined f
  end.

(** The first revision of [voronoi] (voronoi.cpp, lines 33-173). *)
Module Rev1.

(** Line 95, then the conversion at the call of the constructor. *)
Definition gridDims (L : externals) (x : list Q) : res (Z * Z * Z) :=
  let* cells := double_to_xlen (inject_Z (Qceiling (cbrt L (inject_Z (lenZ x))))) in
  Ok (xlen_to_int cells, xlen_to_int cells, xlen_to_int cells).

Definition make_container (L : externals) (x y z : list Q) (containerRatio : Q)
  : res container :=
  let* (nxy, nz_) := gridDims L x in
  Ok {| conXMin := conMin x containerRatio; conXMax := conMax x containerRatio;
        conYMin := conMin y containerRatio; conYMax := conMax y containerRatio;
        conZMin := conMin z containerRatio; conZMax := conMax z containerRatio;
        nx := nxy.1; ny := nxy.2; nz := nz_ |}.

(** Lines 119-121. *)
Definition point_string (L : externals) (x y z : Q) : string :=
  to_string L x +:+ " " +:+ to_string L y +:+ " " +:+ to_string L z.

(** One round of the [do ... while ( clo.inc() )] loop, lines 107-170. *)
Definition cell_step (fuel : nat) (L : externals) (con : container)
    (ps : list particle) (id : Z) (s : loop_state string)
  : res (loop_state string) :=
  match compute_cell L con ps id with
  | Some vc =>
      let vs := vertices L vc (pos L con ps id) in
      let* pts := push_points (point_string L) vs (points s) in
      let* text := polyhedral_surface (λ s, s) vc pts fuel in
      let* cg := ub (store (cellGeometry s) (cGCount s) (Str text)) in
      Ok {| cellGeometry := cg; cGCount := cGCount s + 1; points := [] |}
  | None => Ok s
  end.

Definition voronoi (fuel : nat) (L : externals) (x y z : list Q)
    (containerRatio : Q) : outcome :=
  match check_input x y z containerRatio with
  | Some msg => Stopped msg
  | None =>
      finish (
        let* con := make_container L x y z containerRatio in
        let ps := particles x y z in
        let* s := for_each (c_loop_order L con ps) (cell_step fuel L con ps)
                    {| cellGeometry := replicate (length x) (Str EmptyString);
                       cGCount := 0; points := [] |} in
        Ok (cellGeometry s))
  end.

End Rev1.

(** The second revision of [voronoi] (voronoi.cpp, lines 208-364). *)
Module Rev2.

(** Line 271: the number of points per [5.6] units of volume, and its cube
    root. *)
Definition density (x y z : list Q) : Q :=
  (inject_Z (lenZ x) /
   ((56 # 10) * axisLength x * axisLength y * axisLength z))%Q.

Definition cells (L : externals) (x y z : list Q) : Q :=
  cbrt L (density x y z).

(** Lines 272-274. *)
Definition gridDims (L : externals) (x y z : list Q) : res (Z * Z * Z) :=
  let* nx_ := double_to_int (axisLength x * cells L x y z + 1)%Q in
  let* ny_ := double_to_int (axisLength y * cells L x y z + 1)%Q in
  let* nz_ := double_to_int (axisLength z * cells L x y z + 1)%Q in
  Ok (nx_, ny_, nz_).

Definition make_container (L : externals) (x y z : list Q) (containerRatio : Q)
  : res container :=
  let* (nxy, nz_) := gridDims L x y z in
  Ok {| conXMin := conMin x containerRatio; conXMax := conMax x containerRatio;
        conYMin := conMin y containerRatio; conYMax := conMax y containerRatio;
        conZMin := conMin z containerRatio; conZMax := conMax z containerRatio;
        nx := nxy.1; ny := nxy.2; nz := nz_ |}.

(** One round of the [do ... while ( clo.inc() )] loop, lines 289-360. *)
Definition cell_step (fuel : nat) (L : externals) (con : container)
    (ps : list particle) (id : Z) (s : loop_state DirVector)
  : res (loop_state DirVector) :=
  match compute_cell L con ps id with
  | Some vc =>
      let vs := vertices L vc (pos L con ps id) in
      let* pts := push_points mkDirVector vs (points s) in
      let* text := polyhedral_surface (point L) vc pts fuel in
      let* cg := ub (store (cellGeometry s) (cGCount s) (Str text)) in
      Ok {| cellGeometry := cg; cGCount := cGCount s + 1; points := [] |}
  | None =>
      let* cg := ub (store (cellGeometry s) (cGCount s) NA_STRING) in
      Ok {| cellGeometry := cg; cGCount := cGCount s + 1; points := points s |}
  end.

Definition voronoi (fuel : nat) (L : externals) (x y z : list Q)
    (containerRatio : Q) : outcome :=
  match check_input x y z containerRatio with
  | Some msg => Stopped msg
  | None =>
      finish (
        let* con := make_container L x y z containerRatio in
        let ps := particles x y z in
        let* s := for_each (c_loop_order L con ps) (cell_step fuel L con ps)
                    {| cellGeometry := replicate (length x) (Str EmptyString);
                       cGCount := 0; points := [] |} in
        Ok (cellGeometry s))
  end.

End Rev2.

(** * Part II: the properties *)

(** ** Well-formed topology tables

    The reading of the table that the specification gives: directed edges
    [(v, s)], the vertex an edge points to, the slot of the reverse edge, and
    the face successor of an edge. *)

Definition edge := (Z * Z)%type.

Definition nuv (c : voronoicell) (v : Z) : Z := default 0 (lookupZ (nu c) v).

Definition tgt (c : voronoicell) (e : edge) : Z :=
  default 0 (get (ed c) e.1 e.2).

Definition rcp (c : voronoicell) (e : edge) : Z :=
  default 0 (get (ed c) e.1 (nuv c e.1 + e.2)).

Definition cyc (c : voronoicell) (a w : Z) : Z :=
  if a =? nuv c w - 1 then 0 else a + 1.

(** The edge that follows [e] around the face [e] lies on. *)
Definition next (c : voronoicell) (e : edge) : edge :=
  (tgt c e, cyc c (rcp c e) (tgt c e)).

Definition edges (c : voronoicell) : list edge :=
  v ← seqZ 0 (p c); s ← seqZ 0 (nuv c v); [(v, s)].

(** Edge [e = (v, s)] points to a vertex [w <> v] of the cell, the table
    records at which slot [r] of [w] the reverse edge sits, that slot points
    back to [v] and records [s] in turn, and no other slot of [v] points to
    [w]. *)
Definition edge_ok (c : voronoicell) (e : edge) : Prop :=
  get (ed c) e.1 e.2 = Some (tgt c e) ∧
  get (ed c) e.1 (nuv c e.1 + e.2) = Some (rcp c e) ∧
  0 <= tgt c e < p c ∧
  tgt c e ≠ e.1 ∧
  0 <= rcp c e < nuv c (tgt c e) ∧
  get (ed c) (tgt c e) (rcp c e) = Some e.1 ∧
  get (ed c) (tgt c e) (nuv c (tgt c e) + rcp c e) = Some e.2 ∧
  Forall (λ s', tgt c (e.1, s') = tgt c e → s' = e.2) (seqZ 0 (nuv c e.1)).

(** The face through [e] is a simple cycle: following [next] from [e] comes
    back to [e] after [T] steps and meets the first vertex of [e] nowhere in
    between. *)
Definition face_simple (c : voronoicell) (e : edge) : Prop :=
  Exists (λ T : nat,
            Nat.iter T (next c) e = e ∧
            Forall (λ t : nat, (Nat.iter t (next c) e).1 ≠ e.1) (seq 1 (T - 1)))
         (seq 1 (length (edges c))).

Definition wf_cell (c : voronoicell) : Prop :=
  length (nu c) = Z.to_nat (p c) ∧
  Forall (edge_ok c) (edges c) ∧
  Forall (face_simple c) (edges c).

Global Instance edge_ok_dec c e : Decision (edge_ok c e).
Proof. unfold edge_ok. apply _. Defined.

Global Instance face_simple_dec c e : Decision (face_simple c e).
Proof. unfold face_simple. apply _. Defined.

Global Instance wf_cell_dec c : Decision (wf_cell c).
Proof. unfold wf_cell. apply _. Defined.

(** What an entry holds once the edges of [M] are marked. *)
Definition marked_value (M : list edge) (v s x : Z) : Z :=
  if bool_decide ((v, s) ∈ M) then -1 - x else x.

(** The edges of the face through [e], from [e] on. *)
Definition orbit (c : voronoicell) (e : edge) (n : nat) : list edge :=
  (λ t, Nat.iter t (next c) e) <$> seq 0 n.

Definition tri_of (c : voronoicell) (e0 e : edge) : Z * Z * Z :=
  (e0.1, e.1, tgt c e).

Definition tri_key (tr : Z * Z * Z) : Z * Z := (tr.1.2, tr.2).

Definition edge_key (c : voronoicell) (e : edge) : Z * Z := (e.1, tgt c e).

(** The text of vertex [v] and of the ring emitted for a triangle. *)
Definition point_text {P} (show : P -> string) (points : list P) (v : Z) : string :=
  from_option show EmptyString (lookupZ points v).

Definition tri_text {P} (show : P -> string) (points : list P)
    (tr : Z * Z * Z) : string :=
  polygon_text (point_text show points tr.1.1) (point_text show points tr.1.2)
               (point_text show points tr.2) (point_text show points tr.1.1).

(** The text so far is the header with the rings of the triangles emitted so
    far appended one by one. *)
Definition out_inv {P} (show : P -> string) (points : list P)
    (st : walk_state) : Prop :=
  ws_out st = foldl append_polygon header (tri_text show points <$> ws_tris st).

(** The table is the original one with exactly the edges of [M] negated. *)
Definition tbl_inv (c : voronoicell) (M : list edge) (t : table) : Prop :=
  ∀ v s, get t v s = marked_value M v s <$> get (ed c) v s.

(** [M] is made of whole faces. *)
Definition closed (c : voronoicell) (M : list edge) : Prop :=
  ∀ e, e ∈ edges c → next c e ∈ M → e ∈ M.

(** What holds between two faces of the traversal: the table shows the
    marked edges, the marking log lists edges of the cell without repetition,
    each triangle emitted so far belongs to a marked edge of its own, and the
    text is made of the rings of these triangles. *)
Record walk_inv {P} (show : P -> string) (c : voronoicell) (points : list P)
    (st : walk_state) : Prop := {
  wi_tbl : tbl_inv c (ws_marks st) (ws_ed st);
  wi_sub : ∀ e, e ∈ ws_marks st → e ∈ edges c;
  wi_nodup : NoDup (ws_marks st);
  wi_tris : ∃ N, NoDup N ∧ (∀ e, e ∈ N → e ∈ ws_marks st) ∧
                 tri_key <$> ws_tris st = edge_key c <$> N;
  wi_out : out_inv show points st
}.

(** The edges [1 .. T-2] of the face through [e0]: those the walk leaves
    with a triangle. *)
Definition fan (c : voronoicell) (e0 : edge) (T : nat) : list edge :=
  (λ i, Nat.iter i (next c) e0) <$> seq 1 (T - 2).

(** ** The text of a cell as a list of rings *)

Record ring := {
  r_first : string; r_second : string; r_third : string; r_last : string
}.

Definition ring_text (r : ring) : string :=
  "((" +:+ r_first r +:+ ", " +:+ r_second r +:+ ", " +:+ r_third r +:+ ", " +:+
  r_last r +:+ "))".



(** The ring of a triangle: its last triple is the text of its first vertex
    again. *)
Definition ring_of {P} (show : P -> string) (pts : list P) (tr : Z * Z * Z) : ring :=
  {| r_first := point_text show pts tr.1.1;
     r_second := point_text show pts tr.1.2;
     r_third := point_text show pts tr.2;
     r_last := point_text show pts tr.1.1 |}.

(** ** The driver: what the claims speak about *)

(** The inputs [voronoi] refuses. *)
Definition invalid_input (x y z : list Q) (containerRatio : Q) : Prop :=
  length x ≠ length y ∨ length x ≠ length z ∨ (length x < 2)%nat ∨
  (containerRatio < 1)%Q.

(** What is assumed of libm's cube root: it is not below any rational whose
    cube is at most the argument. *)
Definition cbrt_lower (L : externals) : Prop :=
  ∀ q c : Q, (0 <= c)%Q → (c * c * c <= q)%Q → (c <= cbrt L q)%Q.


(** The result of the second revision for particle [id] alone: the failure
    marker, or the text of its cell written from an empty [points]. *)
Definition cell_entry (fuel : nat) (L : externals) (con : container)
    (ps : list particle) (id : Z) : res entry :=
  match compute_cell L con ps id with
  | Some vc =>
      let* pts := push_points mkDirVector (vertices L vc (pos L con ps id)) [] in
      let* text := polyhedral_surface (point L) vc pts fuel in
      Ok (Str text)
  | None => Ok NA_STRING
  end.

(** What is assumed of a cell voro++ hands over: a well-formed table, three
    coordinates per vertex, and no more directed edges than the fuel. *)
Definition cell_ready (fuel : nat) (L : externals) (con : container)
    (ps : list particle) (id : Z) : Prop :=
  ∀ vc, compute_cell L con ps id = Some vc →
    wf_cell vc ∧
    length (vertices L vc (pos L con ps id)) = (3 * Z.to_nat (p vc))%nat ∧
    (length (edges vc) <= fuel)%nat.

(** The extent of the bounding box along an axis, floored at 2. *)
Definition floored_extent (a : list Q) : Q := Qmax (vec_max a - vec_min a) 2.


(** ** Further notions, for the properties of Part V *)

(** Which message [Rcpp::stop] carries on which input: the checks of lines
    56-63 and 232-239 in their order. *)
Definition stop_reason (x y z : list Q) (containerRatio : Q) (msg : string) : Prop :=
  (msg = "Lengths of coordinate vectors are not equal."%string ∧
   (length x ≠ length y ∨ length x ≠ length z)) ∨
  (msg = "Cannot generate cells if points are less than 2."%string ∧
   length x = length y ∧ length x = length z ∧ (length x < 2)%nat) ∨
  (msg = "Invalid containerRatio: Value must not be less than 1."%string ∧
   length x = length y ∧ length x = length z ∧ (2 <= length x)%nat ∧
   (containerRatio < 1)%Q).

(** Equality of vectors, component by component. *)
Definition veq (a b : DirVector) : Prop :=
  (i a == i b ∧ j a == j b ∧ k a == k b)%Q.

(** A triangle with its first vertex among the vertices the traversal starts
    from, all three vertices in the cell and pairwise distinct. *)
Definition tri_ok (c : voronoicell) (tr : Z * Z * Z) : Prop :=
  1 <= tr.1.1 < p c ∧ 0 <= tr.1.2 < p c ∧ 0 <= tr.2 < p c ∧
  tr.1.1 ≠ tr.1.2 ∧ tr.1.2 ≠ tr.2 ∧ tr.2 ≠ tr.1.1.

(** The cell object as the traversal leaves it. *)
Definition used_cell (c : voronoicell) (st : walk_state) : voronoicell :=
  {| p := p c; nu := nu c; ed := ws_ed st |}.

(** The text of one cell from the coordinates [vs] of its vertices and an
    empty [points], as the first revision (lines 116-165) and as the second
    (lines 301-350) write it. *)
Definition cell_text1 (fuel : nat) (L : externals) (vc : voronoicell)
    (vs : list Q) : res string :=
  let* pts := push_points (Rev1.point_string L) vs [] in
  polyhedral_surface (λ s : string, s) vc pts fuel.

Definition cell_text2 (fuel : nat) (L : externals) (vc : voronoicell)
    (vs : list Q) : res string :=
  let* pts := push_points mkDirVector vs [] in
  polyhedral_surface (point L) vc pts fuel.

(** [t] is the text of the cell of particle [id], written from an empty
    [points] as the first revision writes it. *)
Definition cell_text_of (fuel : nat) (L : externals) (con : container)
    (ps : list particle) (id : Z) (t : string) : Prop :=
  ∃ vc, compute_cell L con ps id = Some vc ∧
        cell_text1 fuel L vc (vertices L vc (pos L con ps id)) = Ok t.

(** The particles of the loop for which [compute_cell] returns true. *)
Definition computed (L : externals) (con : container) (ps : list particle)
    (order : list Z) : list Z :=
  filter (λ id, is_Some (compute_cell L con ps id)) order.

(** The loop of lines 105-170 and of lines 287-360 from a given container,
    on a result vector of [n] empty strings. *)
Definition init_loop {P} (n : nat) : loop_state P :=
  {| cellGeometry := replicate n (Str EmptyString); cGCount := 0; points := [] |}.

Definition loop1 (fuel : nat) (L : externals) (con : container)
    (ps : list particle) (n : nat) : res (loop_state string) :=
  for_each (c_loop_order L con ps) (Rev1.cell_step fuel L con ps) (init_loop n).

Definition loop2 (fuel : nat) (L : externals) (con : container)
    (ps : list particle) (n : nat) : res (loop_state DirVector) :=
  for_each (c_loop_order L con ps) (Rev2.cell_step fuel L con ps) (init_loop n).

#[global] Instance entry_eq_dec : EqDecision entry.
Proof. solve_decision. Defined.

(** The entries of a result that are not the marker. *)
Definition without_markers (es : list entry) : list entry :=
  filter (λ e, e ≠ NA_STRING) es.

(** * Part III: examples of cells and of the external code *)

(** The cell voro++ starts from: the cube of [init_base]. *)
Definition cube : voronoicell :=
  {| p := 8;
     nu := [3; 3; 3; 3; 3; 3; 3; 3];
     ed := [ [1; 4; 2; 2; 1; 0; 0];
             [3; 5; 0; 2; 1; 0; 1];
             [0; 6; 3; 2; 1; 0; 2];
             [2; 7; 1; 2; 1; 0; 3];
             [6; 0; 5; 2; 1; 0; 4];
             [4; 1; 7; 2; 1; 0; 5];
             [7; 2; 4; 2; 1; 0; 6];
             [5; 3; 6; 2; 1; 0; 7] ] |}.

Definition cube_points : list string :=
  ["a"; "b"; "c"; "d"; "e"; "f"; "g"; "h"]%string.

(** The tetrahedron of voro++'s [init_tetrahedron]. *)
Definition tetrahedron : voronoicell :=
  {| p := 4;
     nu := [3; 3; 3; 3];
     ed := [ [1; 3; 2; 0; 0; 0; 0];
             [0; 2; 3; 0; 2; 1; 1];
             [0; 3; 1; 2; 2; 1; 2];
             [0; 1; 2; 1; 2; 1; 3] ] |}.

Definition tetrahedron_points : list string := ["a"; "b"; "c"; "d"]%string.

(** ** A stand-in for the external code, for the examples

    [fixed6] prints like [std::to_string] does ("%f": six decimals, ties to
    even); [cbrt_up] is the cube root rounded up to a dyadic rational; the
    stand-in for voro++ visits every particle in the order of insertion, has
    no cell for a particle that coincides with another one, and otherwise
    answers with the cube of half-width 1 around the particle. *)

Definition round_half_even (q : Q) : Z :=
  let f := Qfloor q in
  let r := (q - inject_Z f)%Q in
  if Qltb r (1 # 2) then f
  else if Qltb (1 # 2) r then f + 1
  else if Z.even f then f else f + 1.

Definition pad6 (m : Z) : string :=
  match pretty (1000000 + m) with
  | String _ s => s
  | EmptyString => EmptyString
  end.

Definition fixed6 (q : Q) : string :=
  let m := round_half_even (Qabs q * 1000000)%Q in
  (if Qltb q 0%Q then "-" else EmptyString) +:+
  pretty (m / 1000000) +:+ "." +:+ pad6 (m mod 1000000).

Fixpoint cbrt_bisect (n : nat) (lo hi x : Q) : Q :=
  match n with
  | O => hi
  | S n' =>
      let mid := Qred ((lo + hi) / 2)%Q in
      if Qle_bool x (mid * mid * mid)%Q then cbrt_bisect n' lo mid x
      else cbrt_bisect n' mid hi x
  end.

Definition cbrt_up (x : Q) : Q :=
  if Qle_bool x 0%Q then 0%Q
  else cbrt_bisect 40 0%Q (if Qle_bool x 1%Q then 1%Q else Qred x) x.

Definition coincide (a b : particle) : bool :=
  Qeq_bool a.1.1 b.1.1 && Qeq_bool a.1.2 b.1.2 && Qeq_bool a.2 b.2.

Definition demo_pos (ps : list particle) (id : Z) : particle :=
  default (0%Q, 0%Q, 0%Q) (lookupZ ps id).

Definition demo_compute_cell (ps : list particle) (id : Z) : option voronoicell :=
  let me := demo_pos ps id in
  if existsb (λ other, negb (other =? id) && coincide me (demo_pos ps other))
             (seqZ 0 (lenZ ps))
  then None else Some cube.

Definition demo_vertices (a : particle) : list Q :=
  let '(x, y, z) := a in
  [ x - 1; y - 1; z - 1;   x + 1; y - 1; z - 1;
    x - 1; y + 1; z - 1;   x + 1; y + 1; z - 1;
    x - 1; y - 1; z + 1;   x + 1; y - 1; z + 1;
    x - 1; y + 1; z + 1;   x + 1; y + 1; z + 1 ]%Q.

Definition demo : externals :=
  {| cbrt := cbrt_up;
     to_string := fixed6;
     c_loop_order := λ _ ps, seqZ 0 (lenZ ps);
     pos := λ _ ps id, demo_pos ps id;
     compute_cell := λ _ ps id, demo_compute_cell ps id;
     vertices := λ _ a, demo_vertices a |}.


Definition Q3 (l : list Z) : list Q := inject_Z <$> l.

(** Three points on the x axis. *)
Definition demo_x : list Q := Q3 [0; 3; 6].
Definition demo_0 : list Q := Q3 [0; 0; 0].

(** Three points of which the first two coincide, and three points of which
    the first and the last coincide: the stand-in for voro++ has no cell for
    the coinciding ones. *)
Definition twin_x : list Q := Q3 [0; 0; 5].
Definition echo_x : list Q := Q3 [0; 5; 0].


(** The containers of the two revisions for [twin_x]. *)
Definition twin_container1 : container :=
  Eval vm_compute in
    match Rev1.make_container demo twin_x demo_0 demo_0 2 with
    | Ok con => con
    | Fault _ => Build_container 0 0 0 0 0 0 0 0 0
    end.

Definition twin_container2 : container :=
  Eval vm_compute in
    match Rev2.make_container demo twin_x demo_0 demo_0 2 with
    | Ok con => con
    | Fault _ => Build_container 0 0 0 0 0 0 0 0 0
    end.

(** The container of the second revision for [demo_x]. *)
Definition demo_container : container :=
  Eval vm_compute in
    match Rev2.make_container demo demo_x demo_0 demo_0 2 with
    | Ok con => con
    | Fault _ => Build_container 0 0 0 0 0 0 0 0 0
    end.

(** * Part IV: proofs *)

Lemma cube_wf : wf_cell cube.
Proof. apply (bool_decide_unpack _). vm_compute. reflexivity. Qed.

Lemma tetrahedron_wf : wf_cell tetrahedron.
Proof. apply (bool_decide_unpack _). vm_compute. reflexivity. Qed.

(** The text written for the tetrahedron: four rings, one per face. *)
Example tetrahedron_text :
  polyhedral_surface (λ s : string, s) tetrahedron tetrahedron_points 12 =
  Ok "POLYHEDRALSURFACE(((b, a, d, b)), ((b, c, a, b)), ((b, d, c, b)), ((c, d, a, c)))"%string.
Proof. reflexivity. Qed.

(** The cube comes out as twelve triangles, two per face. *)
Example cube_triangles :
  ws_tris <$> (match extract_faces (λ s : string, s) cube cube_points 24 with
               | Ok st => Some st
               | Fault _ => None
               end) =
  Some [(1, 3, 2); (1, 2, 0); (1, 5, 7); (1, 7, 3); (1, 0, 4); (1, 4, 5);
        (2, 6, 4); (2, 4, 0); (2, 3, 7); (2, 7, 6); (4, 6, 7); (4, 7, 5)].
Proof. reflexivity. Qed.

(** Without fuel the walk does not come back. *)
Example cube_out_of_fuel :
  extract_faces (λ s : string, s) cube cube_points 0 = Fault OutOfFuel.
Proof. reflexivity. Qed.

(** A table whose first row points outside the cell: the walk leaves the
    table. *)
Example broken_table :
  extract_faces (λ s : string, s)
    {| p := 2; nu := [1; 1]; ed := [[1; 0; 0]; [5; 0; 1]] |}
    ["a"; "b"]%string 4 = Fault OutOfBounds.
Proof. reflexivity. Qed.

Example setThreshold_small : setThreshold (1 # 2) = 2%Q.
Proof. reflexivity. Qed.

Example setThreshold_large : setThreshold 7 = 7%Q.
Proof. reflexivity. Qed.

Example fixed6_third : fixed6 (1 # 3) = "0.333333"%string.
Proof. reflexivity. Qed.

Example fixed6_negative : fixed6 (- (5 # 4)) = "-1.250000"%string.
Proof. reflexivity. Qed.

(** ** Reading and writing tables *)

Lemma lookupZ_Some {A} (l : list A) i x :
  lookupZ l i = Some x → 0 <= i < Z.of_nat (length l).
Proof.
  unfold lookupZ. case_bool_decide as Hi; [|done].
  intros Hx%lookup_lt_Some. lia.
Qed.

Lemma lookupZ_is_Some {A} (l : list A) i :
  0 <= i < Z.of_nat (length l) → is_Some (lookupZ l i).
Proof.
  intros Hi. unfold lookupZ. rewrite bool_decide_eq_true_2 by lia.
  apply lookup_lt_is_Some. lia.
Qed.

Lemma lookupZ_insert {A} (l : list A) i j x y :
  lookupZ l i = Some y →
  lookupZ (<[Z.to_nat i := x]> l) j = if decide (j = i) then Some x else lookupZ l j.
Proof.
  intros Hi. pose proof (lookupZ_Some _ _ _ Hi) as Hr.
  unfold lookupZ. case_decide as Hji.
  - subst j. rewrite bool_decide_eq_true_2 by lia.
    apply list_lookup_insert_eq. lia.
  - case_bool_decide; [|done].
    apply list_lookup_insert_ne. lia.
Qed.

Lemma get_set t v s x t' :
  set t v s x = Some t' →
  ∀ v' s', get t' v' s' = if decide ((v', s') = (v, s)) then Some x else get t v' s'.
Proof.
  unfold set, get. destruct (lookupZ t v) as [row|] eqn:Hrow; [|done].
  destruct (lookupZ row s) as [y|] eqn:Hy; [|done].
  intros [= <-] v' s'.
  rewrite (lookupZ_insert _ _ _ _ _ Hrow).
  destruct (decide (v' = v)) as [->|Hv].
  - rewrite (lookupZ_insert _ _ _ _ _ Hy), Hrow.
    destruct (decide (s' = s)) as [->|Hs].
    + by rewrite decide_True.
    + rewrite decide_False by congruence. done.
  - rewrite decide_False by congruence. done.
Qed.

Lemma set_is_Some t v s x :
  is_Some (get t v s) → is_Some (set t v s x).
Proof.
  unfold set, get. destruct (lookupZ t v) as [row|]; [|by intros [? ?]].
  destruct (lookupZ row s); [eauto | by intros [? ?]].
Qed.

Lemma face_walk_unfold {P} (show : P -> string) c points fuel ii kk ll mm st :
  face_walk show c points fuel ii kk ll mm st =
  if mm =? ii then Ok st
  else
    match fuel with
    | O => Fault OutOfFuel
    | S fuel' =>
        let* nk := ub (lookupZ (nu c) kk) in
        let* r := ub (get (ws_ed st) kk (nk + ll)) in
        let* nn := cycle_up c r mm in
        let* pi := ub (lookupZ points ii) in
        let* pk := ub (lookupZ points kk) in
        let* pm := ub (lookupZ points mm) in
        let* pl := ub (lookupZ points ii) in
        let polygon := polygon_text (show pi) (show pk) (show pm) (show pl) in
        let st1 := {| ws_ed := ws_ed st;
                      ws_out := append_polygon (ws_out st) polygon;
                      ws_marks := ws_marks st;
                      ws_tris := ws_tris st ++ [(ii, kk, mm)] |} in
        let* (mm', st2) := mark mm nn st1 in
        face_walk show c points fuel' ii mm nn mm' st2
    end.
Proof. destruct fuel; reflexivity. Qed.






Lemma tri_text_ring {P} (show : P -> string) pts tr :
  tri_text show pts tr = ring_text (ring_of show pts tr).
Proof. reflexivity. Qed.

Lemma ring_text_nonempty r : ring_text r ≠ EmptyString.
Proof. done. Qed.

Lemma for_each_inv {S} (I : list Z → S → Prop) (body : Z → S → res S) l s :
  I [] s →
  (∀ done x s, I done s → x ∈ l → ∃ s', body x s = Ok s' ∧ I (done ++ [x]) s') →
  ∃ s', for_each l body s = Ok s' ∧ I l s'.
Proof.
  intros H0 Hstep.
  assert (Hgen : ∀ l' done s, (∀ x, x ∈ l' → x ∈ l) → I done s →
            ∃ s', for_each l' body s = Ok s' ∧ I (done ++ l') s').
  { induction l' as [|x l' IH]; intros done s0 Hsub Hs.
    - exists s0. by rewrite app_nil_r.
    - destruct (Hstep done x s0 Hs) as (s1 & Hb & Hs1).
      { apply Hsub. by left. }
      destruct (IH (done ++ [x]) s1) as (s2 & Hr & Hs2); [|done|].
      { intros y Hy. apply Hsub. by right. }
      exists s2. simpl. rewrite Hb. cbn [bind].
      split; [done|]. by rewrite <- app_assoc in Hs2. }
  apply (Hgen l [] s); auto.
Qed.

(** ** The graph a well-formed table describes *)

Section Graph.
Variable c : voronoicell.
Hypothesis Hwf : wf_cell c.

Lemma elem_of_edges v s :
  (v, s) ∈ edges c ↔ 0 <= v < p c ∧ 0 <= s < nuv c v.
Proof.
  unfold edges. rewrite list_elem_of_bind. split.
  - intros (v' & Hs & Hv). apply elem_of_seqZ in Hv.
    apply list_elem_of_bind in Hs as (s' & Hs & Hs').
    apply list_elem_of_singleton in Hs as [= -> ->].
    apply elem_of_seqZ in Hs'. lia.
  - intros [Hv Hs]. exists v. split; [|apply elem_of_seqZ; lia].
    apply list_elem_of_bind. exists s.
    split; [by apply list_elem_of_singleton | apply elem_of_seqZ; lia].
Qed.

Lemma edges_NoDup : NoDup (edges c).
Proof.
  unfold edges. apply NoDup_bind; [| |apply NoDup_seqZ].
  - intros v1 v2 [a b] _ _ H1 H2.
    apply list_elem_of_bind in H1 as (s1 & H1 & _).
    apply list_elem_of_bind in H2 as (s2 & H2 & _).
    apply list_elem_of_singleton in H1, H2. congruence.
  - intros v _. apply NoDup_bind; [| |apply NoDup_seqZ].
    + intros s1 s2 e _ _ H1 H2.
      apply list_elem_of_singleton in H1, H2. congruence.
    + intros s _. apply NoDup_singleton.
Qed.

Lemma edge_ok_of e : e ∈ edges c → edge_ok c e.
Proof. destruct Hwf as (_ & H & _). rewrite Forall_forall in H. auto. Qed.

Lemma edge_vertex e : e ∈ edges c → 0 <= e.1 < p c.
Proof. destruct e. intros H%elem_of_edges. simpl. lia. Qed.

Lemma edge_target e : e ∈ edges c → 0 <= tgt c e < p c.
Proof. intros He. by destruct (edge_ok_of e He) as (_ & _ & H & _). Qed.

Lemma nu_lookup v : 0 <= v < p c → lookupZ (nu c) v = Some (nuv c v).
Proof.
  intros Hv. destruct Hwf as (Hlen & _).
  destruct (lookupZ_is_Some (nu c) v) as [n Hn]; [lia|].
  unfold nuv. by rewrite Hn.
Qed.

Lemma cyc_range a w : 0 <= a < nuv c w → 0 <= cyc c a w < nuv c w.
Proof. unfold cyc. intros. destruct (Z.eqb_spec a (nuv c w - 1)); lia. Qed.

Lemma cyc_inj a b w :
  0 <= a < nuv c w → 0 <= b < nuv c w → cyc c a w = cyc c b w → a = b.
Proof.
  unfold cyc. intros.
  destruct (Z.eqb_spec a (nuv c w - 1)), (Z.eqb_spec b (nuv c w - 1)); lia.
Qed.

Lemma next_edge e : e ∈ edges c → next c e ∈ edges c.
Proof.
  intros He. destruct (edge_ok_of e He) as (_ & _ & Hw & _ & Hr & _).
  unfold next. apply elem_of_edges. split; [done|]. by apply cyc_range.
Qed.

Lemma next_fst e : (next c e).1 = tgt c e.
Proof. done. Qed.

Lemma next_inj e e' :
  e ∈ edges c → e' ∈ edges c → next c e = next c e' → e = e'.
Proof.
  intros He He' Hn.
  destruct (edge_ok_of e He) as (_ & _ & _ & _ & Hr & Hb1 & Hb2 & _).
  destruct (edge_ok_of e' He') as (_ & _ & _ & _ & Hr' & Hb1' & Hb2' & _).
  unfold next in Hn. injection Hn as Hw Hc.
  rewrite <- Hw in *.
  apply cyc_inj in Hc; [|done..]. rewrite <- Hc in *.
  destruct e, e'; simpl in *. congruence.
Qed.

Lemma iter_edge t e : e ∈ edges c → Nat.iter t (next c) e ∈ edges c.
Proof. intros He. induction t; simpl; [done|]. by apply next_edge. Qed.

Lemma iter_next_comm t e :
  Nat.iter t (next c) (next c e) = next c (Nat.iter t (next c) e).
Proof. induction t; simpl; congruence. Qed.

Lemma iter_cancel a b e :
  e ∈ edges c → Nat.iter (a + b) (next c) e = Nat.iter a (next c) e →
  Nat.iter b (next c) e = e.
Proof.
  intros He. induction a; simpl; [done|].
  intros H. apply IHa. apply next_inj; [by apply iter_edge..|done].
Qed.

(** The length of the face through [e]. *)
Lemma face_period e :
  e ∈ edges c →
  ∃ T : nat, (1 <= T <= length (edges c))%nat ∧
    Nat.iter T (next c) e = e ∧
    ∀ t : nat, (1 <= t < T)%nat → (Nat.iter t (next c) e).1 ≠ e.1.
Proof.
  intros He. destruct Hwf as (_ & _ & H). rewrite Forall_forall in H.
  specialize (H e He). apply Exists_exists in H as (T & HT & Hret & Hs).
  apply elem_of_seq in HT. exists T. split; [lia|]. split; [done|].
  intros t Ht. rewrite Forall_forall in Hs. apply Hs, elem_of_seq. lia.
Qed.

Lemma orbit_S e n : orbit c e (S n) = orbit c e n ++ [Nat.iter n (next c) e].
Proof. unfold orbit. by rewrite seq_S, fmap_app. Qed.

Lemma elem_of_orbit e n x :
  x ∈ orbit c e n ↔ ∃ t : nat, (t < n)%nat ∧ x = Nat.iter t (next c) e.
Proof.
  unfold orbit. rewrite list_elem_of_fmap. split.
  - intros (t & -> & Ht). apply elem_of_seq in Ht. exists t. split; [lia|done].
  - intros (t & Ht & ->). exists t. split; [done|]. apply elem_of_seq. lia.
Qed.

Lemma orbit_edges e n x : e ∈ edges c → x ∈ orbit c e n → x ∈ edges c.
Proof.
  intros He (t & _ & ->)%elem_of_orbit. by apply iter_edge.
Qed.

(** Before the face comes back to [e], its edges are pairwise distinct. *)
Lemma orbit_fresh e T t :
  e ∈ edges c →
  (∀ t : nat, (1 <= t < T)%nat → (Nat.iter t (next c) e).1 ≠ e.1) →
  (t < T)%nat → Nat.iter t (next c) e ∉ orbit c e t.
Proof.
  intros He Hs Ht (a & Ha & Heq)%elem_of_orbit.
  assert (Hc : Nat.iter (t - a) (next c) e = e).
  { apply (iter_cancel a); [done|].
    by replace (a + (t - a))%nat with t by lia. }
  apply (Hs (t - a)%nat); [lia|]. by rewrite Hc.
Qed.

Lemma orbit_NoDup e T n :
  e ∈ edges c →
  (∀ t : nat, (1 <= t < T)%nat → (Nat.iter t (next c) e).1 ≠ e.1) →
  (n <= T)%nat → NoDup (orbit c e n).
Proof.
  intros He Hs. induction n as [|n IH]; intros Hn; [constructor|].
  rewrite orbit_S. apply NoDup_app. split; [apply IH; lia|]. split.
  - intros x Hx ->%list_elem_of_singleton.
    by apply (orbit_fresh e T n He Hs); [lia|].
  - apply NoDup_singleton.
Qed.

Lemma closed_fresh M e t :
  closed c M → e ∈ edges c → e ∉ M → Nat.iter t (next c) e ∉ M.
Proof.
  intros Hcl He Hn. induction t; simpl; [done|].
  intros H. apply IHt. apply Hcl; [by apply iter_edge|done].
Qed.

Lemma fan_orbit e0 T :
  (2 <= T)%nat → orbit c e0 (T - 1) = e0 :: fan c e0 T.
Proof.
  intros HT. unfold orbit, fan.
  replace (T - 1)%nat with (S (T - 2)) by lia.
  reflexivity.
Qed.

Lemma orbit_closed M e0 T :
  closed c M → e0 ∈ edges c → (1 <= T)%nat →
  Nat.iter T (next c) e0 = e0 → closed c (M ++ orbit c e0 T).
Proof.
  intros Hcl He0 HT1 HT e He. rewrite !elem_of_app.
  intros [H|H]; [left; by apply Hcl|right].
  apply elem_of_orbit in H as (t & Ht & Heq). apply elem_of_orbit.
  destruct t as [|t].
  - exists (T - 1)%nat. split; [lia|].
    apply (next_inj); [done|by apply iter_edge|].
    change (next c (Nat.iter (T - 1) (next c) e0))
      with (Nat.iter (S (T - 1)) (next c) e0).
    replace (S (T - 1)) with T by lia. by rewrite HT.
  - exists t. split; [lia|].
    apply (next_inj); [done|by apply iter_edge|done].
Qed.

Lemma read_unmarked M t e :
  tbl_inv c M t → e ∈ edges c → e ∉ M → get t e.1 e.2 = Some (tgt c e).
Proof.
  intros Ht He Hn. rewrite Ht. destruct (edge_ok_of e He) as (-> & _).
  simpl. unfold marked_value. destruct e. by rewrite bool_decide_eq_false_2.
Qed.

Lemma read_marked M t e :
  tbl_inv c M t → e ∈ edges c → e ∈ M → get t e.1 e.2 = Some (-1 - tgt c e).
Proof.
  intros Ht He Hn. rewrite Ht. destruct (edge_ok_of e He) as (-> & _).
  simpl. unfold marked_value. destruct e. by rewrite bool_decide_eq_true_2.
Qed.

Lemma read_rcp M t e :
  tbl_inv c M t → (∀ x, x ∈ M → x ∈ edges c) → e ∈ edges c →
  get t e.1 (nuv c e.1 + e.2) = Some (rcp c e).
Proof.
  intros Ht Hsub He. rewrite Ht.
  destruct (edge_ok_of e He) as (_ & -> & _).
  simpl. unfold marked_value. rewrite bool_decide_eq_false_2; [done|].
  intros Hin%Hsub. destruct e as [v s].
  apply elem_of_edges in Hin, He. simpl in *. lia.
Qed.

Lemma mark_spec st e :
  tbl_inv c (ws_marks st) (ws_ed st) → e ∈ edges c → e ∉ ws_marks st →
  ∃ t', mark e.1 e.2 st =
          Ok (tgt c e, {| ws_ed := t'; ws_out := ws_out st;
                          ws_marks := ws_marks st ++ [e];
                          ws_tris := ws_tris st |}) ∧
        tbl_inv c (ws_marks st ++ [e]) t'.
Proof.
  intros Ht He Hn. unfold mark.
  pose proof (read_unmarked _ _ _ Ht He Hn) as Hget. rewrite Hget. simpl.
  destruct (set_is_Some (ws_ed st) e.1 e.2 (-1 - tgt c e)) as [t' Hset];
    [by rewrite Hget|].
  rewrite Hset. simpl. exists t'.
  destruct (edge_ok_of _ He) as (Hg & _).
  destruct e as [v s]. split; [done|].
  intros v' s'. rewrite (get_set _ _ _ _ _ Hset), Ht.
  unfold marked_value. simpl in *. case_decide as Heq.
  - injection Heq as -> ->. rewrite Hg. simpl.
    rewrite bool_decide_eq_true_2; [done|].
    apply elem_of_app. right. by apply list_elem_of_singleton.
  - destruct (get (ed c) v' s'); [|done]. simpl. f_equal.
    rewrite (bool_decide_ext ((v', s') ∈ ws_marks st ++ [(v, s)])
                             ((v', s') ∈ ws_marks st)); [done|].
    rewrite elem_of_app, list_elem_of_singleton. intuition congruence.
Qed.

End Graph.

(** ** The invariant of the traversal *)

Section Walk.
Context {P : Type} (show : P -> string).
Variable c : voronoicell.
Variable points : list P.
Hypothesis Hwf : wf_cell c.
Hypothesis Hpoints : p c <= Z.of_nat (length points).

Lemma point_lookup v : 0 <= v < p c → is_Some (lookupZ points v).
Proof. intros. apply lookupZ_is_Some. lia. Qed.

(** The loop [while ( mm != ii )], entered at the [t]-th edge of the face
    through [e0], runs to the end of that face: it marks the remaining
    edges, all fresh, and emits one triangle for each edge it leaves. *)
Lemma face_walk_spec e0 T M0 :
  e0 ∈ edges c →
  Nat.iter T (next c) e0 = e0 →
  (∀ t : nat, (1 <= t < T)%nat → (Nat.iter t (next c) e0).1 ≠ e0.1) →
  (∀ x, x ∈ M0 → x ∈ edges c) →
  (∀ t, Nat.iter t (next c) e0 ∉ M0) →
  ∀ (m t fuel : nat) st,
    T = (t + 1 + m)%nat → (1 <= t)%nat → (m <= fuel)%nat →
    ws_marks st = M0 ++ orbit c e0 (S t) →
    tbl_inv c (ws_marks st) (ws_ed st) →
    out_inv show points st →
    ∃ st',
      face_walk show c points fuel e0.1
        (Nat.iter t (next c) e0).1 (Nat.iter t (next c) e0).2
        (tgt c (Nat.iter t (next c) e0)) st = Ok st' ∧
      ws_marks st' = M0 ++ orbit c e0 T ∧
      tbl_inv c (ws_marks st') (ws_ed st') ∧
      ws_tris st' =
        ws_tris st ++
        (tri_of c e0 <$> ((λ i, Nat.iter i (next c) e0) <$> seq t m)) ∧
      out_inv show points st'.
Proof.
  intros He0 HT Hs HM0 Hfresh.
  induction m as [|m IH]; intros t fuel st HTk Ht Hfuel Hmarks Htbl Hout.
  - exists st. rewrite face_walk_unfold.
    assert (Hback : tgt c (Nat.iter t (next c) e0) = e0.1).
    { rewrite <- (next_fst c Hwf).
      change (next c (Nat.iter t (next c) e0)) with (Nat.iter (S t) (next c) e0).
      replace (S t) with T by lia. by rewrite HT. }
    rewrite Hback, Z.eqb_refl. split; [done|]. split.
    { rewrite Hmarks. do 2 f_equal. lia. }
    split; [done|]. split; [|done]. simpl. by rewrite app_nil_r.
  - rewrite face_walk_unfold.
    set (e := Nat.iter t (next c) e0) in *.
    assert (He : e ∈ edges c) by by apply (iter_edge c Hwf).
    assert (He' : next c e ∈ edges c) by by apply (next_edge c Hwf).
    assert (Hsub : ∀ x, x ∈ ws_marks st → x ∈ edges c).
    { intros x. rewrite Hmarks, elem_of_app. intros [?|?]; [auto|].
      by apply ((orbit_edges c Hwf) e0 (S t)). }
    assert (Hne : tgt c e ≠ e0.1).
    { change (tgt c e) with (Nat.iter (S t) (next c) e0).1. apply Hs. lia. }
    rewrite (proj2 (Z.eqb_neq _ _) Hne).
    destruct fuel as [|fuel]; [lia|].
    rewrite (nu_lookup c Hwf e.1 (edge_vertex c Hwf e He)). cbn [ub bind].
    rewrite ((read_rcp c Hwf) _ _ e Htbl Hsub He). cbn [ub bind].
    unfold cycle_up.
    rewrite (nu_lookup c Hwf (tgt c e) (edge_target c Hwf e He)). cbn [ub bind].
    destruct (point_lookup e0.1 (edge_vertex c Hwf e0 He0)) as [pi Hpi].
    destruct (point_lookup e.1 (edge_vertex c Hwf e He)) as [pk Hpk].
    destruct (point_lookup (tgt c e) (edge_target c Hwf e He)) as [pm Hpm].
    rewrite Hpi, Hpk, Hpm. cbn [ub bind].
    match goal with
    | |- context [mark _ _ ?s] => set (st1 := s)
    end.
    destruct ((mark_spec c Hwf) st1 (next c e)) as (t' & Hmark & Htbl'); [done|done| |].
    { simpl. rewrite Hmarks, elem_of_app. intros [Hin|Hin].
      - by apply (Hfresh (S t)).
      - apply ((orbit_fresh c Hwf) e0 T (S t) He0 Hs); [lia|done]. }
    change (next c e).1 with (tgt c e) in Hmark.
    change (next c e).2 with (cyc c (rcp c e) (tgt c e)) in Hmark.
    unfold cyc in Hmark. rewrite Hmark. cbn [bind].
    match goal with
    | |- context [face_walk _ _ _ _ _ _ _ _ ?s] => set (st2 := s)
    end.
    destruct (IH (S t) fuel st2) as (st' & Hrun & Hm' & Ht' & Htr' & Ho');
      [lia|lia|lia| | | |].
    { simpl. rewrite Hmarks, ((orbit_S c Hwf) e0 (S t)). by rewrite <- app_assoc. }
    { done. }
    { unfold out_inv. subst st2 st1. cbn [ws_out ws_tris].
      rewrite fmap_app, foldl_app, <- Hout.
      unfold tri_text, point_text. simpl. by rewrite Hpi, Hpk, Hpm. }
    exists st'. split; [exact Hrun|]. split; [done|]. split; [done|].
    split; [|done]. rewrite Htr'. simpl. rewrite <- app_assoc. done.
Qed.

(** The lines before the loop: from an edge [e0] that is not marked yet
    they mark [e0] and its successor and enter the loop there. *)
Lemma face_start_enters fuel st e0 :
  tbl_inv c (ws_marks st) (ws_ed st) →
  (∀ x, x ∈ ws_marks st → x ∈ edges c) →
  closed c (ws_marks st) →
  e0 ∈ edges c → e0 ∉ ws_marks st →
  ∃ st2,
    face_start show c points fuel e0.1 e0.2 st =
      face_walk show c points fuel e0.1 (next c e0).1 (next c e0).2
                (tgt c (next c e0)) st2 ∧
    ws_marks st2 = ws_marks st ++ [e0; next c e0] ∧
    tbl_inv c (ws_marks st2) (ws_ed st2) ∧
    ws_tris st2 = ws_tris st ∧
    ws_out st2 = ws_out st.
Proof.
  intros Htbl Hsub Hcl He0 Hn.
  assert (He1 : next c e0 ∈ edges c) by by apply (next_edge c Hwf).
  destruct (edge_ok_of c Hwf e0 He0) as (_ & _ & _ & Hloop & _).
  unfold face_start.
  rewrite ((read_unmarked c Hwf) _ _ _ Htbl He0 Hn). cbn [ub bind].
  rewrite (proj2 (Z.leb_le _ _)) by apply (edge_target c Hwf e0 He0).
  destruct ((mark_spec c Hwf) st e0 Htbl He0 Hn) as (t1 & -> & Htbl1). cbn [bind].
  match goal with
  | |- context [get (ws_ed ?s)] => set (st1 := s)
  end.
  assert (Hsub1 : ∀ x, x ∈ ws_marks st1 → x ∈ edges c).
  { intros x. simpl. rewrite elem_of_app, list_elem_of_singleton.
    intros [?| ->]; auto. }
  rewrite (nu_lookup c Hwf e0.1 (edge_vertex c Hwf e0 He0)). cbn [ub bind].
  rewrite ((read_rcp c Hwf) (ws_marks st1) (ws_ed st1) e0 Htbl1 Hsub1 He0).
  cbn [ub bind].
  unfold cycle_up.
  rewrite (nu_lookup c Hwf (tgt c e0) (edge_target c Hwf e0 He0)). cbn [ub bind].
  destruct ((mark_spec c Hwf) st1 (next c e0)) as (t2 & Hmark & Htbl2); [done|done| |].
  { simpl. rewrite elem_of_app, list_elem_of_singleton. intros [Hin|Heq].
    - by apply ((closed_fresh c Hwf) _ e0 1 Hcl He0 Hn).
    - apply Hloop. by rewrite <- (next_fst c Hwf), Heq. }
  change (next c e0).1 with (tgt c e0) in Hmark.
  change (next c e0).2 with (cyc c (rcp c e0) (tgt c e0)) in Hmark.
  unfold cyc in Hmark. rewrite Hmark. cbn [bind].
  match goal with
  | |- context [face_walk _ _ _ _ _ _ _ _ ?s] => exists s
  end.
  split; [done|]. split; [simpl; by rewrite <- app_assoc|].
  split; [|done]. exact Htbl2.
Qed.

(** Starting a face at an edge that is not marked yet marks exactly the
    edges of that face and comes back. *)
Lemma face_start_fresh fuel st e0 T :
  tbl_inv c (ws_marks st) (ws_ed st) →
  (∀ x, x ∈ ws_marks st → x ∈ edges c) →
  closed c (ws_marks st) →
  e0 ∈ edges c → e0 ∉ ws_marks st →
  (1 <= T)%nat →
  Nat.iter T (next c) e0 = e0 →
  (∀ t : nat, (1 <= t < T)%nat → (Nat.iter t (next c) e0).1 ≠ e0.1) →
  (T - 2 <= fuel)%nat →
  out_inv show points st →
  ∃ st',
    face_start show c points fuel e0.1 e0.2 st = Ok st' ∧
    ws_marks st' = ws_marks st ++ orbit c e0 T ∧
    tbl_inv c (ws_marks st') (ws_ed st') ∧
    ws_tris st' = ws_tris st ++ (tri_of c e0 <$> fan c e0 T) ∧
    out_inv show points st'.
Proof.
  intros Htbl Hsub Hcl He0 Hn HT1 HT Hs Hfuel Hout.
  destruct (edge_ok_of c Hwf e0 He0) as (_ & _ & _ & Hloop & _).
  assert (HT2 : (2 <= T)%nat).
  { destruct (decide (T = 1%nat)) as [->|]; [|lia].
    simpl in HT. exfalso. apply Hloop. by rewrite <- (next_fst c Hwf), HT. }
  destruct (face_start_enters fuel st e0 Htbl Hsub Hcl He0 Hn)
    as (st2 & -> & Hm2 & Ht2 & Htr2 & Ho2).
  destruct (face_walk_spec e0 T (ws_marks st) He0 HT Hs Hsub
              (λ t, (closed_fresh c Hwf) _ e0 t Hcl He0 Hn)
              (T - 2)%nat 1%nat fuel st2)
    as (st' & Hrun & Hm' & Ht' & Htr' & Ho'); [lia|lia|lia|done|done| |].
  { unfold out_inv. by rewrite Ho2, Htr2. }
  exists st'. split; [exact Hrun|]. split; [done|]. split; [done|].
  split; [|done]. by rewrite Htr', Htr2.
Qed.

Lemma walk_inv_init : walk_inv show c points (init_walk c) ∧ closed c (ws_marks (init_walk c)).
Proof.
  split; [split|]; simpl.
  - intros v s. unfold marked_value. by destruct (get (ed c) v s).
  - by intros e ?%elem_of_nil.
  - constructor.
  - exists []. split; [constructor|]. split; [|done]. by intros e ?%elem_of_nil.
  - done.
  - by intros e _ ?%elem_of_nil.
Qed.

(** One round of the [jj] loop keeps the invariant, whether the edge was
    already used or starts a new face. *)
Lemma face_start_inv fuel st e0 :
  walk_inv show c points st → closed c (ws_marks st) → e0 ∈ edges c →
  (length (edges c) <= fuel)%nat →
  ∃ st',
    face_start show c points fuel e0.1 e0.2 st = Ok st' ∧
    walk_inv show c points st' ∧ closed c (ws_marks st') ∧
    (∀ x, x ∈ ws_marks st → x ∈ ws_marks st') ∧
    e0 ∈ ws_marks st'.
Proof.
  intros [Htbl Hsub Hnd (N & HN & HNsub & Hkeys) Hout] Hcl He0 Hfuel.
  destruct (decide (e0 ∈ ws_marks st)) as [Hin|Hn].
  - exists st. unfold face_start.
    rewrite ((read_marked c Hwf) _ _ _ Htbl He0 Hin). cbn [ub bind].
    pose proof (edge_target c Hwf e0 He0).
    rewrite (proj2 (Z.leb_gt _ _)) by lia.
    split; [done|]. split; [by split; eauto|]. done.
  - destruct (face_period c Hwf e0 He0) as (T & HT1 & HT & Hs).
    destruct (face_start_fresh fuel st e0 T)
      as (st' & Hrun & Hm' & Ht' & Htr' & Ho'); [done..|lia|done|done|lia|done|].
    assert (HT2 : (2 <= T)%nat).
    { destruct (decide (T = 1%nat)) as [->|]; [|lia]. simpl in HT.
      destruct (edge_ok_of c Hwf e0 He0) as (_ & _ & _ & Hloop & _).
      exfalso. apply Hloop. by rewrite <- (next_fst c Hwf), HT. }
    pose proof ((orbit_NoDup c Hwf) e0 T (T - 1) He0 Hs ltac:(lia)) as Hfan.
    rewrite ((fan_orbit c Hwf) e0 T HT2) in Hfan. apply NoDup_cons in Hfan as [_ Hfan].
    assert (Hfan_in : ∀ x, x ∈ fan c e0 T →
              ∃ t : nat, (t < T)%nat ∧ x = Nat.iter t (next c) e0).
    { intros x (i & -> & Hi%elem_of_seq)%list_elem_of_fmap.
      exists i. split; [lia|done]. }
    exists st'. split; [done|]. split; [split|].
    + done.
    + intros x. rewrite Hm', elem_of_app. intros [?|?]; [auto|].
      by apply ((orbit_edges c Hwf) e0 T).
    + rewrite Hm'. apply NoDup_app. split; [done|]. split.
      * intros x Hx (t & _ & ->)%(elem_of_orbit c Hwf).
        by apply ((closed_fresh c Hwf) _ e0 t Hcl He0 Hn).
      * by apply ((orbit_NoDup c Hwf) e0 T T).
    + exists (N ++ fan c e0 T). split; [|split].
      * apply NoDup_app. split; [done|]. split; [|done].
        intros x Hx%HNsub (t & _ & ->)%Hfan_in.
        by apply ((closed_fresh c Hwf) _ e0 t Hcl He0 Hn).
      * intros x. rewrite Hm', !elem_of_app. intros [?|Hx]; [left; auto|right].
        apply (elem_of_orbit c Hwf). by apply Hfan_in.
      * rewrite Htr', !fmap_app, Hkeys. f_equal.
        by rewrite <- list_fmap_compose.
    + done.
    + split; [|split].
      * rewrite Hm'. by apply (orbit_closed c Hwf); [|done|lia|].
      * intros x Hx. rewrite Hm'. apply elem_of_app. by left.
      * rewrite Hm'. apply elem_of_app. right. apply (elem_of_orbit c Hwf).
        exists 0%nat. split; [lia|done].
Qed.

End Walk.

Section Traversal.
Context {P : Type} (show : P -> string).
Variable c : voronoicell.
Variable points : list P.
Hypothesis Hwf : wf_cell c.
Hypothesis Hpoints : p c <= Z.of_nat (length points).
Variable fuel : nat.
Hypothesis Hfuel : (length (edges c) <= fuel)%nat.

Lemma vertex_faces_inv ii st :
  0 <= ii < p c → walk_inv show c points st → closed c (ws_marks st) →
  ∃ st',
    vertex_faces show c points fuel ii st = Ok st' ∧
    walk_inv show c points st' ∧ closed c (ws_marks st') ∧
    (∀ x, x ∈ ws_marks st → x ∈ ws_marks st') ∧
    (∀ s, 0 <= s < nuv c ii → (ii, s) ∈ ws_marks st').
Proof.
  intros Hii Hinv Hcl. unfold vertex_faces.
  rewrite (nu_lookup c Hwf ii Hii). cbn [ub bind].
  destruct (for_each_inv
              (λ done s, walk_inv show c points s ∧ closed c (ws_marks s) ∧
                         (∀ x, x ∈ ws_marks st → x ∈ ws_marks s) ∧
                         (∀ j, j ∈ done → (ii, j) ∈ ws_marks s))
              (face_start show c points fuel ii) (seqZ 0 (nuv c ii)) st)
    as (st' & Hrun & Hi' & Hc' & Hmono & Hdone).
  - split; [done|]. split; [done|]. split; [done|]. by intros j ?%elem_of_nil.
  - intros done j s (Hi & Hc & Hm & Hd) Hj. apply elem_of_seqZ in Hj.
    destruct (face_start_inv show c points Hwf Hpoints fuel s (ii, j) Hi Hc)
      as (s' & Hrun & Hi' & Hc' & Hm' & Hin); [apply (elem_of_edges c Hwf); lia|done|].
    exists s'. split; [done|]. split; [done|]. split; [done|].
    split; [auto|]. intros j' [Hj'| ->%list_elem_of_singleton]%elem_of_app; auto.
  - exists st'. split; [done|]. split; [done|]. split; [done|].
    split; [done|]. intros s Hs. apply Hdone, elem_of_seqZ. lia.
Qed.

(** The whole traversal goes through and leaves every edge marked, each
    one once. *)
Lemma extract_faces_inv :
  ∃ st,
    extract_faces show c points fuel = Ok st ∧
    walk_inv show c points st ∧
    (∀ e, e ∈ edges c → e ∈ ws_marks st).
Proof.
  unfold extract_faces.
  destruct (walk_inv_init show c points Hwf Hpoints) as [Hi0 Hc0].
  destruct (for_each_inv
              (λ done s, walk_inv show c points s ∧ closed c (ws_marks s) ∧
                         (∀ v s', v ∈ done → 0 <= s' < nuv c v →
                                  (v, s') ∈ ws_marks s))
              (vertex_faces show c points fuel) (seqZ 1 (p c - 1))
              (init_walk c))
    as (st & Hrun & Hi & Hc & Hdone).
  - split; [done|]. split; [done|]. by intros v s' ?%elem_of_nil.
  - intros done v s (Hi & Hc & Hd) Hv. apply elem_of_seqZ in Hv.
    destruct (vertex_faces_inv v s) as (s' & Hrun & Hi' & Hc' & Hm & Hall);
      [lia|done|done|].
    exists s'. split; [done|]. split; [done|]. split; [done|].
    intros v' s'' [Hv'| ->%list_elem_of_singleton]%elem_of_app Hs''; eauto.
  - exists st. split; [done|]. split; [done|].
    intros [v s] He.
    assert (Hge : ∀ v' s', (v', s') ∈ edges c → 1 <= v' → (v', s') ∈ ws_marks st).
    { intros v' s' He' Hv'. apply (elem_of_edges c Hwf) in He'.
      apply Hdone; [apply elem_of_seqZ|]; lia. }
    destruct (decide (1 <= v)) as [Hv|Hv]; [by apply Hge|].
    apply Hc; [done|].
    pose proof (next_edge c Hwf _ He) as Hn.
    destruct (edge_ok_of c Hwf _ He) as (_ & _ & Hw & Hloop & _).
    pose proof (edge_vertex c Hwf (v, s) He) as Hv0. simpl in *.
    unfold next in *. apply Hge; [done|]. simpl. lia.
Qed.
End Traversal.

(** ** Face extraction: the claims *)

Lemma edge_key_inj c e e' :
  wf_cell c → e ∈ edges c → e' ∈ edges c → edge_key c e = edge_key c e' → e = e'.
Proof.
  intros Hwf He He' [= Hv Ht].
  destruct (edge_ok_of c Hwf e He) as (_ & _ & _ & _ & _ & _ & _ & Hu).
  rewrite Forall_forall in Hu. destruct e as [v s], e' as [v' s'].
  simpl in *. subst v'. f_equal. symmetry. apply Hu; [|done].
  apply (elem_of_edges c Hwf) in He'. apply elem_of_seqZ. lia.
Qed.

(** C3. For a well-formed cell the traversal goes through (with fuel for one
    round of the table) and the marking log shows that each directed edge
    [(vertex, slot)] is used exactly once: the log has no repetition, it is a
    permutation of the directed edges of the table, every edge ends up
    negated in the table, and no triangle [(ii, kk, mm)] is emitted twice. *)
Theorem extraction_uses_each_edge_once {P} (show : P -> string) c pts fuel :
  wf_cell c →
  p c <= Z.of_nat (length pts) →
  (length (edges c) <= fuel)%nat →
  ∃ st,
    extract_faces show c pts fuel = Ok st ∧
    NoDup (ws_marks st) ∧
    ws_marks st ≡ₚ edges c ∧
    (∀ e, e ∈ edges c → ∃ x, get (ws_ed st) e.1 e.2 = Some x ∧ x < 0) ∧
    NoDup (ws_tris st).
Proof.
  intros Hwf Hpts Hfuel.
  destruct (extract_faces_inv show c pts Hwf Hpts fuel Hfuel)
    as (st & Hrun & [Htbl Hsub Hnd (N & HN & HNsub & Hkeys) _] & Hall).
  exists st. split; [done|]. split; [done|]. split; [|split].
  - apply NoDup_Permutation; [done|by apply edges_NoDup|]. intros e. split; auto.
  - intros e He. exists (-1 - tgt c e). split.
    + by apply (read_marked c Hwf (ws_marks st)); auto.
    + pose proof (edge_target c Hwf e He). lia.
  - apply (NoDup_fmap_1 tri_key). rewrite Hkeys.
    apply NoDup_fmap_2_strong; [|done].
    intros e e' He He' Hk. apply (edge_key_inj c); auto.
Qed.

Lemma extraction_uses_each_edge_once_cube :
  ∃ st,
    extract_faces (λ s : string, s) cube cube_points 24 = Ok st ∧
    NoDup (ws_marks st) ∧
    ws_marks st ≡ₚ edges cube ∧
    (∀ e, e ∈ edges cube → ∃ x, get (ws_ed st) e.1 e.2 = Some x ∧ x < 0) ∧
    NoDup (ws_tris st).
Proof.
  apply (extraction_uses_each_edge_once (λ s : string, s) cube cube_points 24).
  - exact cube_wf.
  - vm_compute. discriminate.
  - vm_compute. lia.
Defined.

(** C10. In a well-formed cell, at any point of the traversal between two
    faces, the loop [while ( mm != ii )] entered from an edge [(ii, jj)] that
    is not marked yet comes back: with fuel for the edges still unmarked it
    returns, after [T - 2] rounds where [T] is the length of the face; every
    round marks one edge, and the edges marked are new and pairwise
    distinct. *)
Theorem face_walk_terminates {P} (show : P -> string) c pts st ii jj fuel :
  wf_cell c →
  p c <= Z.of_nat (length pts) →
  walk_inv show c pts st →
  closed c (ws_marks st) →
  (ii, jj) ∈ edges c →
  (ii, jj) ∉ ws_marks st →
  (length (edges c) - length (ws_marks st) <= fuel)%nat →
  ∃ st2 st' (T : nat),
    face_start show c pts fuel ii jj st =
      face_walk show c pts fuel ii (next c (ii, jj)).1 (next c (ii, jj)).2
                (tgt c (next c (ii, jj))) st2 ∧
    face_walk show c pts fuel ii (next c (ii, jj)).1 (next c (ii, jj)).2
              (tgt c (next c (ii, jj))) st2 = Ok st' ∧
    (2 <= T <= length (edges c) - length (ws_marks st))%nat ∧
    ws_marks st' = ws_marks st ++ orbit c (ii, jj) T ∧
    NoDup (ws_marks st') ∧
    length (ws_tris st') = (length (ws_tris st) + (T - 2))%nat.
Proof.
  intros Hwf Hpts [Htbl Hsub Hnd HN Hout] Hcl He0 Hn Hfuel.
  destruct (face_period c Hwf (ii, jj) He0) as (T & HT1 & HT & Hs).
  destruct (edge_ok_of c Hwf _ He0) as (_ & _ & _ & Hloop & _).
  assert (HT2 : (2 <= T)%nat).
  { destruct (decide (T = 1%nat)) as [->|]; [|lia].
    simpl in HT. exfalso. apply Hloop. by rewrite <- (next_fst c Hwf), HT. }
  assert (Hnd' : NoDup (ws_marks st ++ orbit c (ii, jj) T)).
  { apply NoDup_app. split; [done|]. split.
    - intros x Hx (t & _ & ->)%(elem_of_orbit c Hwf).
      by apply (closed_fresh c Hwf _ (ii, jj) t Hcl He0 Hn).
    - by apply (orbit_NoDup c Hwf (ii, jj) T T). }
  assert (Hlen : (length (ws_marks st) + T <= length (edges c))%nat).
  { replace T with (length (orbit c (ii, jj) T)) at 1
      by (unfold orbit; by rewrite length_fmap, length_seq).
    rewrite <- length_app. apply submseteq_length, NoDup_submseteq; [done|].
    intros x [?|?]%elem_of_app; [auto|]. by apply (orbit_edges c Hwf (ii, jj) T). }
  destruct (face_start_enters show c pts Hwf Hpts fuel st (ii, jj) Htbl Hsub Hcl He0 Hn)
    as (st2 & Henter & Hm2 & Ht2 & Htr2 & Ho2).
  destruct (face_walk_spec show c pts Hwf Hpts (ii, jj) T (ws_marks st)
              He0 HT Hs Hsub
              (λ t, closed_fresh c Hwf _ (ii, jj) t Hcl He0 Hn)
              (T - 2)%nat 1%nat fuel st2)
    as (st' & Hrun & Hm' & Ht' & Htr' & Ho'); [lia|lia|lia|done|done| |].
  { unfold out_inv. by rewrite Ho2, Htr2. }
  exists st2, st', T. split; [exact Henter|]. split; [exact Hrun|].
  split; [lia|]. split; [done|]. split; [by rewrite Hm'|].
  rewrite Htr', Htr2, length_app, !length_fmap, length_seq. done.
Qed.

Lemma face_walk_terminates_cube :
  ∃ st2 st' (T : nat),
    face_start (λ s : string, s) cube cube_points 24 1 0 (init_walk cube) =
      face_walk (λ s : string, s) cube cube_points 24 1
                (next cube (1, 0)).1 (next cube (1, 0)).2
                (tgt cube (next cube (1, 0))) st2 ∧
    face_walk (λ s : string, s) cube cube_points 24 1
              (next cube (1, 0)).1 (next cube (1, 0)).2
              (tgt cube (next cube (1, 0))) st2 = Ok st' ∧
    (2 <= T <= length (edges cube) - length (ws_marks (init_walk cube)))%nat ∧
    ws_marks st' = ws_marks (init_walk cube) ++ orbit cube (1, 0) T ∧
    NoDup (ws_marks st') ∧
    length (ws_tris st') = (length (ws_tris (init_walk cube)) + (T - 2))%nat.
Proof.
  apply (face_walk_terminates (λ s : string, s) cube cube_points
           (init_walk cube) 1 0 24).
  - exact cube_wf.
  - vm_compute. discriminate.
  - apply (walk_inv_init _ cube cube_points cube_wf). vm_compute. discriminate.
  - apply (walk_inv_init (λ s : string, s) cube cube_points cube_wf).
    vm_compute. discriminate.
  - apply (bool_decide_unpack _). vm_compute. reflexivity.
  - apply (bool_decide_unpack _). vm_compute. reflexivity.
  - vm_compute. lia.
Defined.



(** ** The driver loop *)

Lemma for_each_inv_pos {S} (I : list Z → S → Prop) (body : Z → S → res S) l s :
  I [] s →
  (∀ done x rest s, l = done ++ x :: rest → I done s →
     ∃ s', body x s = Ok s' ∧ I (done ++ [x]) s') →
  ∃ s', for_each l body s = Ok s' ∧ I l s'.
Proof.
  intros H0 Hstep.
  assert (Hgen : ∀ l' done s, l = done ++ l' → I done s →
            ∃ s', for_each l' body s = Ok s' ∧ I (done ++ l') s').
  { induction l' as [|x l' IH]; intros done s0 Hl Hs.
    - exists s0. by rewrite app_nil_r.
    - destruct (Hstep done x l' s0 Hl Hs) as (s1 & Hb & Hs1).
      destruct (IH (done ++ [x]) s1) as (s2 & Hr & Hs2); [|done|].
      { by rewrite <- app_assoc. }
      exists s2. simpl. rewrite Hb. cbn [bind].
      split; [done|]. by rewrite <- app_assoc in Hs2. }
  apply (Hgen l [] s); auto.
Qed.

Lemma for_each_ext_in {S} (f g : Z → S → res S) l s :
  (∀ x s, x ∈ l → f x s = g x s) → for_each l f s = for_each l g s.
Proof.
  revert s. induction l as [|x l IH]; intros s H; simpl; [done|].
  rewrite H by left. destruct (g x s); simpl; [|done].
  apply IH. intros y s' Hy. apply H. by right.
Qed.

Lemma for_each_ext {S} (f g : Z → S → res S) l s :
  (∀ x s, f x s = g x s) → for_each l f s = for_each l g s.
Proof. intros H. apply for_each_ext_in. auto. Qed.

Lemma seqZ_split n done id rest :
  seqZ 0 n = done ++ id :: rest → id = lenZ done ∧ 0 <= id < n.
Proof.
  intros Hl.
  assert (Hid : seqZ 0 n !! length done = Some id).
  { rewrite Hl. by rewrite list_lookup_middle. }
  apply lookup_seqZ in Hid. unfold lenZ. lia.
Qed.

Lemma push_points_ok {P} (mk : Q → Q → Q → P) (n : nat) : ∀ vs pts,
  length vs = (3 * n)%nat →
  ∃ pts', push_points mk vs pts = Ok pts' ∧ length pts' = (length pts + n)%nat.
Proof.
  induction n as [|n IH]; intros vs pts Hlen.
  - destruct vs; [|done]. exists pts. simpl. split; [done|lia].
  - destruct vs as [|a [|b [|d vs]]]; simpl in Hlen; try lia.
    destruct (IH vs (pts ++ [mk a b d])) as (pts' & Hrun & Hl); [lia|].
    exists pts'. split; [exact Hrun|]. rewrite Hl, length_app. simpl. lia.
Qed.


Lemma polyhedral_surface_ok {P} (show : P → string) c pts fuel :
  wf_cell c → p c <= Z.of_nat (length pts) → (length (edges c) <= fuel)%nat →
  ∃ text, polyhedral_surface show c pts fuel = Ok text.
Proof.
  intros Hwf Hpts Hfuel.
  destruct (extract_faces_inv show c pts Hwf Hpts fuel Hfuel) as (st & Hrun & _).
  unfold polyhedral_surface. rewrite Hrun. cbn [bind]. eauto.
Qed.

Lemma store_ok cg at_ e :
  0 <= at_ < Z.of_nat (length cg) →
  ∃ cg', store cg at_ e = Some cg' ∧ length cg' = length cg ∧
    ∀ id, lookupZ cg' id = if decide (id = at_) then Some e else lookupZ cg id.
Proof.
  intros Hr. unfold store.
  destruct (lookupZ_is_Some cg at_ Hr) as [old Hold]. rewrite Hold.
  eexists. split; [done|]. split; [by rewrite length_insert|].
  intros id. by apply (lookupZ_insert _ _ _ _ old).
Qed.

Lemma check_input_None x y z r :
  check_input x y z r = None ↔ ¬ invalid_input x y z r.
Proof.
  unfold check_input, invalid_input, lenZ, Qltb.
  destruct (Z.eqb_spec (Z.of_nat (length x)) (Z.of_nat (length y))) as [Hy|Hy];
    simpl; [|split; [done|intros H; exfalso; apply H; left; lia]].
  destruct (Z.eqb_spec (Z.of_nat (length x)) (Z.of_nat (length z))) as [Hz|Hz];
    simpl; [|split; [done|intros H; exfalso; apply H; right; left; lia]].
  destruct (Z.ltb_spec (Z.of_nat (length x)) 2) as [Hn|Hn];
    [split; [done|intros H; exfalso; apply H; right; right; left; lia]|].
  destruct (Qle_bool 1 r) eqn:Hr; simpl.
  - apply Qle_bool_iff in Hr. split; [|done]. intros _ [?|[?|[?|?]]]; try lia.
    by apply (Qlt_not_le r 1).
  - split; [done|]. intros H. exfalso. apply H. right; right; right.
    apply Qnot_le_lt. intros Hle%Qle_bool_iff. congruence.
Qed.

(** The second revision, on input it accepts and with voro++ visiting the
    particles in the order of insertion: it returns one entry per point, and
    the entry at the position of a point is the result for that point, the
    failure marker where the cell could not be computed. *)
Lemma rev2_entries fuel L x y z r con :
  check_input x y z r = None →
  Rev2.make_container L x y z r = Ok con →
  c_loop_order L con (particles x y z) = seqZ 0 (lenZ x) →
  (∀ id, 0 <= id < lenZ x → cell_ready fuel L con (particles x y z) id) →
  ∃ out,
    Rev2.voronoi fuel L x y z r = Returned out ∧
    length out = length x ∧
    ∀ id, 0 <= id < lenZ x →
      ∃ e, lookupZ out id = Some e ∧
           cell_entry fuel L con (particles x y z) id = Ok e.
Proof.
  intros Hcheck Hcon Horder Hready. unfold Rev2.voronoi.
  rewrite Hcheck, Hcon. cbn [bind]. rewrite Horder.
  set (ps := particles x y z) in *.
  destruct (for_each_inv_pos
              (λ done s,
                 cGCount s = lenZ done ∧ points s = [] ∧
                 length (cellGeometry s) = length x ∧
                 ∀ id, 0 <= id < lenZ done →
                   ∃ e, lookupZ (cellGeometry s) id = Some e ∧
                        cell_entry fuel L con ps id = Ok e)
              (Rev2.cell_step fuel L con ps) (seqZ 0 (lenZ x))
              {| cellGeometry := replicate (length x) (Str EmptyString);
                 cGCount := 0; points := [] |})
    as (s & Hrun & _ & _ & Hlen & Hall).
  - simpl. split; [done|]. split; [done|]. split; [by rewrite length_replicate|].
    unfold lenZ. simpl. lia.
  - intros done id rest s Hl (Hcount & Hpts & Hlen & Hdone).
    apply seqZ_split in Hl as [-> Hid].
    assert (Hlen' : lenZ (done ++ [lenZ done]) = lenZ done + 1).
    { unfold lenZ. rewrite length_app. simpl. lia. }
    unfold Rev2.cell_step. specialize (Hready _ Hid). unfold cell_ready in Hready.
    destruct (compute_cell L con ps (lenZ done)) as [vc|] eqn:Hcell.
    + destruct (Hready vc eq_refl) as (Hwf & Hvs & Hfuel).
      destruct (push_points_ok mkDirVector _ _ [] Hvs) as (pts & Hpush & Hplen).
      rewrite Hpts, Hpush. cbn [bind].
      destruct (polyhedral_surface_ok (point L) vc pts fuel) as [text Htext];
        [done| |done|].
      { rewrite Hplen. simpl. destruct Hwf as (Hnu & _).
        pose proof (Zle_0_nat (length (nu vc))). lia. }
      rewrite Htext. cbn [bind].
      destruct (store_ok (cellGeometry s) (cGCount s) (Str text))
        as (cg & -> & Hcl & Hcg); [unfold lenZ in *; lia|].
      cbn [ub bind]. eexists. split; [done|]. simpl.
      split; [lia|]. split; [done|]. split; [lia|].
      intros id Hid'. rewrite Hcg, Hcount. case_decide as Heq.
      * subst id. eexists. split; [done|]. unfold cell_entry.
        rewrite Hcell, Hpush. cbn [bind]. by rewrite Htext.
      * apply Hdone. lia.
    + destruct (store_ok (cellGeometry s) (cGCount s) NA_STRING)
        as (cg & -> & Hcl & Hcg); [unfold lenZ in *; lia|].
      cbn [ub bind]. eexists. split; [done|]. simpl.
      split; [lia|]. split; [done|]. split; [lia|].
      intros id Hid'. rewrite Hcg, Hcount. case_decide as Heq.
      * subst id. eexists. split; [done|]. unfold cell_entry. by rewrite Hcell.
      * apply Hdone. lia.
  - rewrite Hrun. cbn [bind finish]. exists (cellGeometry s).
    split; [done|]. split; [done|]. intros id Hid. apply Hall.
    unfold lenZ. rewrite length_seqZ. unfold lenZ in Hid. lia.
Qed.

(** ** Input validation *)

Lemma check_input_Some x y z r msg :
  check_input x y z r = Some msg → invalid_input x y z r.
Proof.
  intros H. destruct (check_input x y z r) eqn:Hc; [|done].
  unfold check_input, invalid_input, lenZ, Qltb in *.
  destruct (Z.eqb_spec (Z.of_nat (length x)) (Z.of_nat (length y)));
    [|left; lia].
  destruct (Z.eqb_spec (Z.of_nat (length x)) (Z.of_nat (length z)));
    [|right; left; lia].
  simpl in Hc.
  destruct (Z.ltb_spec (Z.of_nat (length x)) 2); [right; right; left; lia|].
  destruct (Qle_bool 1 r) eqn:Hr; [done|].
  right; right; right. apply Qnot_le_lt. intros Hle%Qle_bool_iff. congruence.
Qed.

Lemma finish_not_stopped r msg : finish r ≠ Stopped msg.
Proof. by destruct r. Qed.

(** C4. Both revisions stop with an error exactly on the inputs with vectors
    of unequal length, fewer than two points or a ratio below 1; the result
    is then the error alone, and the same whatever the external code would
    answer: nothing of the decomposition has run. *)
Theorem voronoi_stops_iff_invalid fuel L x y z r :
  ((∃ msg, Rev1.voronoi fuel L x y z r = Stopped msg) ↔ invalid_input x y z r) ∧
  ((∃ msg, Rev2.voronoi fuel L x y z r = Stopped msg) ↔ invalid_input x y z r) ∧
  (invalid_input x y z r →
     ∀ fuel' L',
       Rev1.voronoi fuel' L' x y z r = Rev1.voronoi fuel L x y z r ∧
       Rev2.voronoi fuel' L' x y z r = Rev2.voronoi fuel L x y z r).
Proof.
  unfold Rev1.voronoi, Rev2.voronoi.
  destruct (check_input x y z r) as [msg|] eqn:Hc.
  - pose proof (check_input_Some _ _ _ _ _ Hc) as Hinv.
    split; [|split]; [split; eauto..|]. intros _ fuel' L'. done.
  - pose proof (proj1 (check_input_None x y z r) Hc) as Hv.
    split; [|split]; [split; [|done]..|done].
    + intros [msg H]. by apply finish_not_stopped in H.
    + intros [msg H]. by apply finish_not_stopped in H.
Qed.

(** ** Reruns *)






(** ** The vector helpers *)

(** C5. [dot] is not the dot product: on [a = b = (0, 1, 0)] the code
    returns [0*0 + (1+1) + (0+0) = 2] where the dot product is 1. *)
Theorem dot_is_not_the_dot_product :
  (dot (mkDirVector 0 1 0) (mkDirVector 0 1 0) == 2)%Q ∧
  (dot_product (mkDirVector 0 1 0) (mkDirVector 0 1 0) == 1)%Q ∧
  ¬ (∀ a b, dot a b == dot_product a b)%Q.
Proof.
  split; [reflexivity|]. split; [reflexivity|].
  intros H. specialize (H (mkDirVector 0 1 0) (mkDirVector 0 1 0)).
  vm_compute in H. discriminate.
Qed.

(** ** Container sizing *)

Lemma Qltb_lt x y : Qltb x y = true ↔ (x < y)%Q.
Proof.
  unfold Qltb. destruct (Qle_bool y x) eqn:H; simpl.
  - apply Qle_bool_iff in H. split; [done|]. intros ?%Qlt_not_le. done.
  - split; [|done]. intros _. apply Qnot_le_lt. intros ?%Qle_bool_iff. congruence.
Qed.

Lemma Qltb_ge x y : Qltb x y = false ↔ (y <= x)%Q.
Proof.
  unfold Qltb. destruct (Qle_bool y x) eqn:H; simpl.
  - apply Qle_bool_iff in H. done.
  - split; [done|]. intros ?%Qle_bool_iff. congruence.
Qed.

Lemma setThreshold_max x : (setThreshold x == Qmax x 2)%Q.
Proof.
  unfold setThreshold. destruct (Qltb x 2) eqn:H.
  - apply Qltb_lt in H. symmetry. apply Q.max_r. by apply Qlt_le_weak.
  - apply Qltb_ge in H. symmetry. by apply Q.max_l.
Qed.

Lemma axisLength_floored a : (axisLength a == floored_extent a)%Q.
Proof. apply setThreshold_max. Qed.

Lemma axisLength_ge_2 a : (2 <= axisLength a)%Q.
Proof. rewrite axisLength_floored. apply Q.le_max_r. Qed.




(** ** Grid resolution *)

Lemma cube_le_inv c h :
  (0 <= c)%Q → (0 <= h)%Q → (c * c * c <= h * h * h)%Q → (c <= h)%Q.
Proof.
  intros Hc Hh Hle. apply Qnot_lt_le. intros Hlt.
  assert (H1 : (0 < c * c)%Q) by (apply Qmult_lt_0_compat; lra).
  assert (H2 : (0 <= c * h)%Q) by (apply Qmult_le_0_compat; lra).
  assert (H3 : (0 <= h * h)%Q) by (apply Qmult_le_0_compat; lra).
  assert (H4 : (0 < (c - h) * (c * c + c * h + h * h))%Q)
    by (apply Qmult_lt_0_compat; lra).
  lra.
Qed.

Lemma cbrt_bisect_lower n : ∀ lo hi x c,
  (0 <= c)%Q → (c * c * c <= x)%Q → (0 <= lo)%Q → (0 <= hi)%Q →
  (x <= hi * hi * hi)%Q → (c <= cbrt_bisect n lo hi x)%Q.
Proof.
  induction n as [|n IH]; intros lo hi x c Hc Hx Hlo Hhi Hub; simpl.
  - apply cube_le_inv; [done..|]. lra.
  - assert (Hmid : (0 <= Qred ((lo + hi) / 2))%Q).
    { rewrite Qred_correct. apply Qle_shift_div_l; lra. }
    destruct (Qle_bool x _) eqn:Hb.
    + apply Qle_bool_iff in Hb. by apply IH.
    + by apply IH.
Qed.

Lemma cbrt_up_lower : cbrt_lower demo.
Proof.
  intros q c Hc Hq. simpl. unfold cbrt_up.
  destruct (Qle_bool q 0) eqn:H0.
  - apply Qle_bool_iff in H0. apply cube_le_inv; [done|lra|]. lra.
  - apply cbrt_bisect_lower; [done|done|lra| |].
    + destruct (Qle_bool q 1); [lra|]. rewrite Qred_correct.
      apply Qnot_lt_le. intros Hneg.
      assert (Hq0 : (q <= 0)%Q) by lra.
      apply Qle_bool_iff in Hq0. congruence.
    + destruct (Qle_bool q 1) eqn:H1.
      * apply Qle_bool_iff in H1. lra.
      * rewrite Qred_correct.
        assert (Hq1 : (1 < q)%Q).
        { apply Qnot_le_lt. intros ?%Qle_bool_iff. congruence. }
        nra.
Qed.

Lemma Qtrunc_floor q : (0 <= q)%Q → Qtrunc q = Qfloor q.
Proof.
  intros Hq. unfold Qtrunc. by rewrite (proj2 (Qltb_ge q 0) Hq).
Qed.










(** ** The first revision and cells that fail *)

(** The first revision, on the same assumptions as [rev2_entries]: it
    returns one entry per point, none of which is the failure marker. *)
Lemma rev1_never_marks fuel L x y z r con :
  check_input x y z r = None →
  Rev1.make_container L x y z r = Ok con →
  c_loop_order L con (particles x y z) = seqZ 0 (lenZ x) →
  (∀ id, 0 <= id < lenZ x → cell_ready fuel L con (particles x y z) id) →
  ∃ out,
    Rev1.voronoi fuel L x y z r = Returned out ∧
    length out = length x ∧
    Forall (λ e, e ≠ NA_STRING) out.
Proof.
  intros Hcheck Hcon Horder Hready. unfold Rev1.voronoi.
  rewrite Hcheck, Hcon. cbn [bind]. rewrite Horder.
  set (ps := particles x y z) in *.
  destruct (for_each_inv_pos
              (λ done s,
                 0 <= cGCount s <= lenZ done ∧ points s = [] ∧
                 length (cellGeometry s) = length x ∧
                 Forall (λ e, e ≠ NA_STRING) (cellGeometry s))
              (Rev1.cell_step fuel L con ps) (seqZ 0 (lenZ x))
              {| cellGeometry := replicate (length x) (Str EmptyString);
                 cGCount := 0; points := [] |})
    as (s & Hrun & _ & _ & Hlen & Hall).
  - simpl. split; [unfold lenZ; simpl; lia|]. split; [done|].
    split; [by rewrite length_replicate|]. by apply Forall_replicate.
  - intros done id rest s Hl (Hcount & Hpts & Hlen & Hna).
    apply seqZ_split in Hl as [-> Hid].
    assert (Hlen' : lenZ (done ++ [lenZ done]) = lenZ done + 1).
    { unfold lenZ. rewrite length_app. simpl. lia. }
    unfold Rev1.cell_step. specialize (Hready _ Hid). unfold cell_ready in Hready.
    destruct (compute_cell L con ps (lenZ done)) as [vc|] eqn:Hcell.
    + destruct (Hready vc eq_refl) as (Hwf & Hvs & Hfuel).
      destruct (push_points_ok (Rev1.point_string L) _ _ [] Hvs)
        as (pts & Hpush & Hplen).
      rewrite Hpts, Hpush. cbn [bind].
      destruct (polyhedral_surface_ok (λ t : string, t) vc pts fuel)
        as [text Htext]; [done| |done|].
      { rewrite Hplen. simpl. destruct Hwf as (Hnu & _).
        pose proof (Zle_0_nat (length (nu vc))). lia. }
      rewrite Htext. cbn [bind]. unfold store.
      destruct (lookupZ_is_Some (cellGeometry s) (cGCount s)) as [old ->];
        [unfold lenZ in *; lia|].
      cbn [ub bind]. eexists. split; [done|]. simpl.
      split; [lia|]. split; [done|]. split; [by rewrite length_insert|].
      by apply Forall_insert.
    + exists s. split; [done|]. split; [lia|]. done.
  - rewrite Hrun. cbn [bind finish]. by exists (cellGeometry s).
Qed.

(** C1, on the first revision. With three points of which the first two have
    no cell, the second revision returns the two markers and then the cell
    of the third point; the first revision returns that cell at position 0
    and leaves the position of the third point with the empty string it was
    created with: the order of the output is not the order of the input. *)
Theorem rev1_misplaces_cells :
  ∃ text,
    Rev2.voronoi 24 demo twin_x demo_0 demo_0 2 =
      Returned [NA_STRING; NA_STRING; Str text] ∧
    Rev1.voronoi 24 demo twin_x demo_0 demo_0 2 =
      Returned [Str text; Str EmptyString; Str EmptyString].
Proof. eexists. split; vm_compute; reflexivity. Qed.

(** C2, on the first revision. With three points of which the first and the
    last have no cell, the first revision returns no failure marker at all:
    the position of the first point holds the cell of the second point, whose
    own position holds the empty string. *)
Theorem rev1_writes_no_marker :
  demo_compute_cell (particles echo_x demo_0 demo_0) 0 = None ∧
  ∃ out text,
    Rev1.voronoi 24 demo echo_x demo_0 demo_0 2 = Returned out ∧
    (NA_STRING ∉ out) ∧
    Rev2.voronoi 24 demo echo_x demo_0 demo_0 2 =
      Returned [NA_STRING; Str text; NA_STRING] ∧
    lookupZ out 0 = Some (Str text) ∧
    lookupZ out 1 = Some (Str EmptyString).
Proof.
  split; [reflexivity|]. eexists. eexists.
  split; [vm_compute; reflexivity|]. split.
  - intros H. repeat (apply elem_of_cons in H as [H|H]; [discriminate H|]).
    by apply elem_of_nil in H.
  - split; [vm_compute; reflexivity|]. split; reflexivity.
Qed.

(** ** Fuel

    The fuel is a device of the embedding: once a run returns, more fuel
    returns the same. *)

Ltac step_binds :=
  repeat match goal with
         | H : bind ?m _ = Ok _ |- bind ?m _ = Ok _ =>
             destruct m; cbn [bind] in H |- *; [|discriminate H]
         | H : (let (_, _) := ?x in _) = Ok _ |- _ => destruct x
         end.

Lemma for_each_mono {S} (f g : Z → S → res S) l :
  (∀ x s s', f x s = Ok s' → g x s = Ok s') →
  ∀ s s', for_each l f s = Ok s' → for_each l g s = Ok s'.
Proof.
  intros Hfg. induction l as [|x l IH]; intros s s' H; simpl in *; [done|].
  destruct (f x s) as [s1|] eqn:Hf; [|discriminate H].
  rewrite (Hfg _ _ _ Hf). cbn [bind] in *. by apply IH.
Qed.

Lemma face_walk_mono {P} (show : P → string) c pts fuel : ∀ fuel' ii kk ll mm st st',
  (fuel <= fuel')%nat →
  face_walk show c pts fuel ii kk ll mm st = Ok st' →
  face_walk show c pts fuel' ii kk ll mm st = Ok st'.
Proof.
  induction fuel as [|fuel IH]; intros fuel' ii kk ll mm st st' Hle H;
    rewrite face_walk_unfold in H |- *;
    destruct (mm =? ii); try done.
  destruct fuel' as [|fuel']; [lia|].
  step_binds. apply IH; [lia|done].
Qed.

Lemma extract_faces_mono {P} (show : P → string) c pts fuel fuel' st :
  (fuel <= fuel')%nat →
  extract_faces show c pts fuel = Ok st →
  extract_faces show c pts fuel' = Ok st.
Proof.
  intros Hle. unfold extract_faces. apply for_each_mono. intros ii s s'.
  unfold vertex_faces. intros H. step_binds. revert H. apply for_each_mono.
  intros jj s1 s2. unfold face_start. intros H. step_binds.
  destruct (0 <=? _); [|done]. step_binds. by apply (face_walk_mono show c pts fuel).
Qed.

Lemma polyhedral_surface_mono {P} (show : P → string) c pts fuel fuel' text :
  (fuel <= fuel')%nat →
  polyhedral_surface show c pts fuel = Ok text →
  polyhedral_surface show c pts fuel' = Ok text.
Proof.
  intros Hle. unfold polyhedral_surface. intros H.
  destruct (extract_faces show c pts fuel) as [st|] eqn:Hrun; [|discriminate H].
  by rewrite (extract_faces_mono show c pts fuel fuel' st Hle Hrun).
Qed.

Lemma cell_step1_mono fuel fuel' L con ps id s s' :
  (fuel <= fuel')%nat →
  Rev1.cell_step fuel L con ps id s = Ok s' →
  Rev1.cell_step fuel' L con ps id s = Ok s'.
Proof.
  intros Hle. unfold Rev1.cell_step.
  destruct (compute_cell L con ps id); [|done]. intros H.
  destruct (push_points _ _ _) as [pts|]; cbn [bind] in H |- *; [|done].
  destruct (polyhedral_surface _ _ pts fuel) as [text|] eqn:Ht; [|done].
  by rewrite (polyhedral_surface_mono _ _ _ fuel fuel' text Hle Ht).
Qed.

Lemma cell_step2_mono fuel fuel' L con ps id s s' :
  (fuel <= fuel')%nat →
  Rev2.cell_step fuel L con ps id s = Ok s' →
  Rev2.cell_step fuel' L con ps id s = Ok s'.
Proof.
  intros Hle. unfold Rev2.cell_step.
  destruct (compute_cell L con ps id); [|done]. intros H.
  destruct (push_points _ _ _) as [pts|]; cbn [bind] in H |- *; [|done].
  destruct (polyhedral_surface _ _ pts fuel) as [text|] eqn:Ht; [|done].
  by rewrite (polyhedral_surface_mono _ _ _ fuel fuel' text Hle Ht).
Qed.

(** What either revision returns does not change with more fuel. *)
Lemma voronoi_fuel_mono fuel fuel' L x y z r out :
  (fuel <= fuel')%nat →
  (Rev1.voronoi fuel L x y z r = Returned out →
   Rev1.voronoi fuel' L x y z r = Returned out) ∧
  (Rev2.voronoi fuel L x y z r = Returned out →
   Rev2.voronoi fuel' L x y z r = Returned out).
Proof.
  intros Hle. unfold Rev1.voronoi, Rev2.voronoi.
  destruct (check_input x y z r); [done|]. split.
  - destruct (Rev1.make_container L x y z r) as [con|]; cbn [bind]; [|done].
    destruct (for_each _ (Rev1.cell_step fuel L con _) _) as [s|] eqn:Hrun;
      [|done].
    apply (for_each_mono _ (Rev1.cell_step fuel' L con (particles x y z))) in Hrun.
    + by rewrite Hrun.
    + intros id s1 s2. by apply cell_step1_mono.
  - destruct (Rev2.make_container L x y z r) as [con|]; cbn [bind]; [|done].
    destruct (for_each _ (Rev2.cell_step fuel L con _) _) as [s|] eqn:Hrun;
      [|done].
    apply (for_each_mono _ (Rev2.cell_step fuel' L con (particles x y z))) in Hrun.
    + by rewrite Hrun.
    + intros id s1 s2. by apply cell_step2_mono.
Qed.

(** * Part V: further properties of the code *)

(** ** The messages of the input checks *)

Lemma check_input_reason x y z r msg :
  check_input x y z r = Some msg ↔ stop_reason x y z r msg.
Proof.
  unfold check_input, stop_reason, lenZ.
  destruct (Z.eqb_spec (Z.of_nat (length x)) (Z.of_nat (length y))) as [Hy|Hy];
    simpl.
  2:{ split.
      - intros [= <-]. left. split; [done|]. left. lia.
      - intros [[-> _]|[(_ & ? & _)|(_ & ? & _)]]; [done|lia|lia]. }
  destruct (Z.eqb_spec (Z.of_nat (length x)) (Z.of_nat (length z))) as [Hz|Hz];
    simpl.
  2:{ split.
      - intros [= <-]. left. split; [done|]. right. lia.
      - intros [[-> _]|[(_ & _ & ? & _)|(_ & _ & ? & _)]]; [done|lia|lia]. }
  apply Nat2Z.inj in Hy, Hz.
  destruct (Z.ltb_spec (Z.of_nat (length x)) 2) as [Hn|Hn].
  { split.
    - intros [= <-]. right; left. repeat split; [done..|lia].
    - intros [[_ [?|?]]|[(-> & _)|(_ & _ & _ & ? & _)]]; [done|done|done|lia]. }
  destruct (Qltb r 1) eqn:Hr.
  - apply Qltb_lt in Hr. split.
    + intros [= <-]. right; right. repeat split; [done..|lia|done].
    + intros [[_ [?|?]]|[(_ & _ & _ & ?)|(-> & _)]]; [done|done|lia|done].
  - apply Qltb_ge in Hr. split; [done|].
    intros [[_ [?|?]]|[(_ & _ & _ & ?)|(_ & _ & _ & _ & Hlt)]];
      [done|done|lia|]. by apply Qlt_not_le in Hlt.
Qed.

(** X1. Both revisions stop with the message of the first check that fails,
    in the order lengths, number of points, ratio: the message about the
    lengths whenever the vectors differ in length, whatever the rest; the
    message about the points only when the lengths agree; the message about
    the ratio only when lengths and number of points are fine. *)
Theorem voronoi_stop_message fuel L x y z r msg :
  (Rev1.voronoi fuel L x y z r = Stopped msg ↔ stop_reason x y z r msg) ∧
  (Rev2.voronoi fuel L x y z r = Stopped msg ↔ stop_reason x y z r msg).
Proof.
  rewrite <- check_input_reason. unfold Rev1.voronoi, Rev2.voronoi.
  destruct (check_input x y z r) as [m|].
  - split; (split; [by intros [= ->]|by intros [= ->]]).
  - split; (split; [|done]); intros H; by apply finish_not_stopped in H.
Qed.

(** ** The vector operations *)

(** X2. The cross product of [operator*] is orthogonal to both of its
    operands, changes sign when they are swapped (in the terms of the code:
    it is the zero vector minus the product the other way round), and is
    zero for a vector with itself. *)
Theorem vcross_orthogonal_antisymmetric a b :
  (dot_product a (vcross a b) == 0)%Q ∧
  (dot_product b (vcross a b) == 0)%Q ∧
  veq (vcross a b) (vsub DirVector0 (vcross b a)) ∧
  veq (vcross a a) DirVector0.
Proof.
  unfold dot_product, veq, vcross, vsub, DirVector0. simpl.
  repeat split; ring.
Qed.

(** X3. How the operations compose: the cross product distributes over the
    subtraction of [operator-], and the sum of squares of which [magnitude]
    takes the root is, for a cross product, the product of the squared
    lengths of the operands less the square of their dot product. *)
Theorem vcross_composes a b d :
  veq (vcross (vsub a b) d) (vsub (vcross a d) (vcross b d)) ∧
  (i (vcross a b) ^ 2 + j (vcross a b) ^ 2 + k (vcross a b) ^ 2 ==
   dot_product a a * dot_product b b - dot_product a b * dot_product a b)%Q.
Proof.
  unfold dot_product, veq, vcross, vsub. simpl.
  repeat split; ring.
Qed.

(** ** Reading the vertices *)

Lemma push_points_cases {P} (mk : Q → Q → Q → P) vs : ∀ pts,
  (∃ n pts',
     length vs = (3 * n)%nat ∧
     push_points mk vs pts = Ok pts' ∧
     length pts' = (length pts + n)%nat ∧
     (∀ m, (m < length pts)%nat → pts' !! m = pts !! m) ∧
     (∀ m a b d,
        vs !! (3 * m)%nat = Some a → vs !! (3 * m + 1)%nat = Some b →
        vs !! (3 * m + 2)%nat = Some d →
        pts' !! (length pts + m)%nat = Some (mk a b d))) ∨
  (push_points mk vs pts = Fault OutOfBounds ∧ ¬ ∃ n, length vs = (3 * n)%nat).
Proof.
  induction vs as [vs IH] using (induction_ltof1 _ (@length Q)).
  intros pts. destruct vs as [|a [|b [|d vs]]].
  - left. exists 0%nat, pts. split; [done|]. split; [done|]. split; [lia|].
    split; [done|]. intros m ? ? ? H. by rewrite lookup_nil in H.
  - right. split; [done|]. intros [n Hn]. simpl in Hn. lia.
  - right. split; [done|]. intros [n Hn]. simpl in Hn. lia.
  - destruct (IH vs ltac:(unfold ltof; simpl; lia) (pts ++ [mk a b d]))
      as [(n & pts' & Hlen & Hrun & Hl & Hpre & Hcont)|[Hrun Hno]].
    + left. exists (S n), pts'. rewrite length_app in Hl. simpl in Hl.
      split; [simpl; lia|]. split; [exact Hrun|]. split; [lia|]. split.
      * intros m Hm. rewrite Hpre by (rewrite length_app; simpl; lia).
        by rewrite lookup_app_l.
      * intros m a' b' d' Ha Hb Hd. destruct m as [|m].
        -- simpl in Ha, Hb, Hd. injection Ha as <-. injection Hb as <-.
           injection Hd as <-. rewrite Nat.add_0_r.
           rewrite Hpre by (rewrite length_app; simpl; lia).
           by rewrite list_lookup_middle.
        -- replace (length pts + S m)%nat
             with (length (pts ++ [mk a b d]) + m)%nat
             by (rewrite length_app; simpl; lia).
           apply Hcont.
           ++ by replace (3 * S m)%nat with (S (S (S (3 * m)))) in Ha by lia.
           ++ by replace (3 * S m + 1)%nat with (S (S (S (3 * m + 1)))) in Hb by lia.
           ++ by replace (3 * S m + 2)%nat with (S (S (S (3 * m + 2)))) in Hd by lia.
    + right. split; [exact Hrun|]. intros [n Hn]. simpl in Hn. apply Hno.
      exists (n - 1)%nat. lia.
Qed.

(** X4. The loop over [vCounter] goes through exactly when the number of
    coordinates is a multiple of 3, and otherwise reads past the end of
    [vertices]; when it goes through, it leaves what [points] held in place
    and appends one point per three coordinates, in order. *)
Theorem push_points_reads_triples {P} (mk : Q → Q → Q → P) vs pts :
  ((∃ pts', push_points mk vs pts = Ok pts') ↔ ∃ n, length vs = (3 * n)%nat) ∧
  (∀ f, push_points mk vs pts = Fault f → f = OutOfBounds) ∧
  (∀ pts', push_points mk vs pts = Ok pts' →
     (3 * (length pts' - length pts))%nat = length vs ∧
     (∀ m, (m < length pts)%nat → pts' !! m = pts !! m) ∧
     (∀ m a b d,
        vs !! (3 * m)%nat = Some a → vs !! (3 * m + 1)%nat = Some b →
        vs !! (3 * m + 2)%nat = Some d →
        pts' !! (length pts + m)%nat = Some (mk a b d))).
Proof.
  destruct (push_points_cases mk vs pts)
    as [(n & pts' & Hlen & Hrun & Hl & Hpre & Hcont)|[Hrun Hno]].
  - split; [split; eauto|]. split; [intros f; by rewrite Hrun|].
    intros pts''. rewrite Hrun. intros [= <-]. split; [lia|done].
  - split; [split; [intros [pts' H]; by rewrite Hrun in H|done]|].
    split; [intros f; rewrite Hrun; by intros [= <-]|].
    intros pts'. by rewrite Hrun.
Qed.

Lemma push_points_fmap {P R} (f : P → R) (mk : Q → Q → Q → P) vs : ∀ pts,
  push_points (λ a b d, f (mk a b d)) vs (f <$> pts) =
  match push_points mk vs pts with
  | Ok l => Ok (f <$> l)
  | Fault e => Fault e
  end.
Proof.
  induction vs as [vs IH] using (induction_ltof1 _ (@length Q)).
  intros pts. destruct vs as [|a [|b [|d vs]]]; simpl; try done.
  rewrite <- IH by (unfold ltof; simpl; lia). by rewrite fmap_app.
Qed.

(** ** The two ways of keeping the vertices *)

Lemma lookupZ_fmap {A B} (f : A → B) (l : list A) n :
  lookupZ (f <$> l) n = f <$> lookupZ l n.
Proof. unfold lookupZ. case_bool_decide; [|done]. apply list_lookup_fmap. Qed.

Lemma face_walk_fmap {P} (show : P → string) c pts fuel : ∀ ii kk ll mm st,
  face_walk show c pts fuel ii kk ll mm st =
  face_walk (λ s : string, s) c (show <$> pts) fuel ii kk ll mm st.
Proof.
  induction fuel as [|fuel IH]; intros ii kk ll mm st; simpl; [done|].
  destruct (mm =? ii); [done|].
  repeat match goal with
         | |- bind (ub (lookupZ (nu c) ?a)) _ = _ =>
             destruct (ub (lookupZ (nu c) a)); cbn [bind]; [|reflexivity]
         | |- bind (ub (get ?a ?b ?d)) _ = _ =>
             destruct (ub (get a b d)); cbn [bind]; [|reflexivity]
         | |- bind (cycle_up ?a ?b ?d) _ = _ =>
             destruct (cycle_up a b d); cbn [bind]; [|reflexivity]
         end.
  rewrite !lookupZ_fmap.
  destruct (lookupZ pts ii); cbn [fmap option_fmap option_map ub bind]; [|done].
  destruct (lookupZ pts kk); cbn [fmap option_fmap option_map ub bind]; [|done].
  destruct (lookupZ pts mm); cbn [fmap option_fmap option_map ub bind]; [|done].
  match goal with
  | |- bind ?m _ = bind ?m _ => destruct m as [[? ?]|]; cbn [bind]; [|reflexivity]
  end.
  apply IH.
Qed.

Lemma extract_faces_fmap {P} (show : P → string) c pts fuel :
  extract_faces show c pts fuel =
  extract_faces (λ s : string, s) c (show <$> pts) fuel.
Proof.
  unfold extract_faces. apply for_each_ext. intros ii st.
  unfold vertex_faces. destruct (ub (lookupZ (nu c) ii)); cbn [bind]; [|done].
  apply for_each_ext. intros jj st'. unfold face_start.
  repeat match goal with
         | |- bind ?m _ = bind ?m _ => destruct m; cbn [bind]; [|reflexivity]
         | |- (if ?b then _ else _) = _ => destruct b; [|reflexivity]
         | |- (let (_, _) := ?x in _) = _ => destruct x
         end.
  apply face_walk_fmap.
Qed.

Lemma cell_text2_eq fuel L vc vs :
  cell_text2 fuel L vc vs = cell_text1 fuel L vc vs.
Proof.
  unfold cell_text1, cell_text2.
  change (Rev1.point_string L) with (λ a b d, point L (mkDirVector a b d)).
  change (@nil string) with (point L <$> @nil DirVector).
  rewrite push_points_fmap.
  destruct (push_points mkDirVector vs []) as [pts|]; cbn [bind]; [|done].
  unfold polyhedral_surface. by rewrite extract_faces_fmap.
Qed.

(** X5. Keeping the vertices as [DirVector]s and printing them with
    [point()] where a ring is written (second revision) gives, for every cell
    and every list of coordinates, the same result as keeping the printed
    strings (first revision): the same text, or the same fault. *)
Theorem revisions_write_the_same_cell_text fuel L vc vs :
  cell_text2 fuel L vc vs = cell_text1 fuel L vc vs.
Proof. apply cell_text2_eq. Qed.

(** ** The table after the traversal *)

(** X6. The traversal of a well-formed cell leaves the table of the cell
    object changed in place and does not put it back: every neighbour entry
    [ed[v][s]] holds [-1 - w] where it held [w], and every other entry (the
    slots of the reverse edges, the entries behind them) is what it was. *)
Theorem extraction_negates_the_table {P} (show : P -> string) c pts fuel :
  wf_cell c →
  p c <= Z.of_nat (length pts) →
  (length (edges c) <= fuel)%nat →
  ∃ st,
    extract_faces show c pts fuel = Ok st ∧
    ∀ v s,
      get (ws_ed st) v s =
      (λ w, if bool_decide ((v, s) ∈ edges c) then -1 - w else w) <$>
        get (ed c) v s.
Proof.
  intros Hwf Hpts Hfuel.
  destruct (extract_faces_inv show c pts Hwf Hpts fuel Hfuel)
    as (st & Hrun & [Htbl Hsub _ _ _] & Hall).
  exists st. split; [done|]. intros v s. rewrite Htbl. unfold marked_value.
  destruct (get (ed c) v s); [|done]. simpl. f_equal.
  rewrite (bool_decide_ext ((v, s) ∈ ws_marks st) ((v, s) ∈ edges c)); [done|].
  split; auto.
Qed.

Lemma extraction_negates_the_table_tetrahedron :
  ∃ st,
    extract_faces (λ s : string, s) tetrahedron tetrahedron_points 12 = Ok st ∧
    ∀ v s,
      get (ws_ed st) v s =
      (λ w, if bool_decide ((v, s) ∈ edges tetrahedron) then -1 - w else w) <$>
        get (ed tetrahedron) v s.
Proof.
  apply (extraction_negates_the_table (λ s : string, s) tetrahedron
           tetrahedron_points 12).
  - exact tetrahedron_wf.
  - vm_compute. discriminate.
  - vm_compute. lia.
Defined.

Lemma for_each_fix {S} (body : Z → S → res S) l s :
  (∀ x, x ∈ l → body x s = Ok s) → for_each l body s = Ok s.
Proof.
  induction l as [|x l IH]; intros H; simpl; [done|].
  rewrite H by left. cbn [bind]. apply IH. intros y Hy. apply H. by right.
Qed.

(** X7. A cell object is used up by the traversal: traversing the same
    object again, with any fuel, marks nothing, emits no ring and writes the
    empty surface. *)
Theorem second_traversal_is_empty {P} (show : P -> string) c pts fuel :
  wf_cell c →
  p c <= Z.of_nat (length pts) →
  (length (edges c) <= fuel)%nat →
  ∃ st,
    extract_faces show c pts fuel = Ok st ∧
    ∀ fuel',
      extract_faces show (used_cell c st) pts fuel' = Ok (init_walk (used_cell c st)) ∧
      polyhedral_surface show (used_cell c st) pts fuel' =
        Ok "POLYHEDRALSURFACE()"%string.
Proof.
  intros Hwf Hpts Hfuel.
  destruct (extract_faces_inv show c pts Hwf Hpts fuel Hfuel)
    as (st & Hrun & [Htbl Hsub _ _ _] & Hall).
  exists st. split; [done|]. intros fuel'.
  assert (Hagain : extract_faces show (used_cell c st) pts fuel' =
                   Ok (init_walk (used_cell c st))).
  { unfold extract_faces. apply for_each_fix. intros ii Hii.
    apply elem_of_seqZ in Hii. simpl in Hii. unfold vertex_faces.
    change (nu (used_cell c st)) with (nu c).
    rewrite (nu_lookup c Hwf ii) by lia. cbn [ub bind].
    apply for_each_fix. intros jj Hjj. apply elem_of_seqZ in Hjj.
    assert (He : (ii, jj) ∈ edges c) by (apply (elem_of_edges c Hwf); lia).
    unfold face_start. cbn [init_walk ws_ed used_cell ed].
    pose proof (read_marked c Hwf _ _ (ii, jj) Htbl He (Hall _ He)) as Hr.
    simpl in Hr. rewrite Hr. cbn [ub bind].
    pose proof (edge_target c Hwf _ He).
    by rewrite (proj2 (Z.leb_gt _ _)) by lia. }
  split; [done|]. unfold polyhedral_surface. by rewrite Hagain.
Qed.

Lemma second_traversal_is_empty_cube :
  ∃ st,
    extract_faces (λ s : string, s) cube cube_points 24 = Ok st ∧
    ∀ fuel',
      extract_faces (λ s : string, s) (used_cell cube st) cube_points fuel' =
        Ok (init_walk (used_cell cube st)) ∧
      polyhedral_surface (λ s : string, s) (used_cell cube st) cube_points fuel' =
        Ok "POLYHEDRALSURFACE()"%string.
Proof.
  apply (second_traversal_is_empty (λ s : string, s) cube cube_points 24).
  - exact cube_wf.
  - vm_compute. discriminate.
  - vm_compute. lia.
Defined.

(** ** The triangles *)

Section Triangles.
Context {P : Type} (show : P -> string).
Variable c : voronoicell.
Variable points : list P.
Hypothesis Hwf : wf_cell c.
Hypothesis Hpoints : p c <= Z.of_nat (length points).
Variable fuel : nat.
Hypothesis Hfuel : (length (edges c) <= fuel)%nat.

Lemma face_start_tris st e0 :
  walk_inv show c points st → closed c (ws_marks st) →
  e0 ∈ edges c → 1 <= e0.1 →
  Forall (tri_ok c) (ws_tris st) →
  ∃ st',
    face_start show c points fuel e0.1 e0.2 st = Ok st' ∧
    walk_inv show c points st' ∧ closed c (ws_marks st') ∧
    Forall (tri_ok c) (ws_tris st').
Proof.
  intros Hinv Hcl He0 Hii Htris.
  destruct (face_start_inv show c points Hwf Hpoints fuel st e0 Hinv Hcl He0 Hfuel)
    as (st' & Hrun & Hinv' & Hcl' & _ & _).
  exists st'. split; [done|]. split; [done|]. split; [done|].
  destruct Hinv as [Htbl Hsub Hnd HN Hout].
  destruct (decide (e0 ∈ ws_marks st)) as [Hin|Hn].
  - unfold face_start in Hrun.
    rewrite (read_marked c Hwf _ _ _ Htbl He0 Hin) in Hrun. cbn [ub bind] in Hrun.
    pose proof (edge_target c Hwf e0 He0).
    rewrite (proj2 (Z.leb_gt _ _)) in Hrun by lia. by injection Hrun as <-.
  - destruct (face_period c Hwf e0 He0) as (T & HT1 & HT & Hs).
    destruct (face_start_fresh show c points Hwf Hpoints fuel st e0 T)
      as (st'' & Hrun' & _ & _ & Htr & _); [done..|lia|done|done|lia|done|].
    rewrite Hrun in Hrun'. injection Hrun' as <-.
    rewrite Htr. apply Forall_app. split; [done|].
    apply Forall_fmap, Forall_forall. intros e (n & -> & Hn')%list_elem_of_fmap.
    apply elem_of_seq in Hn'.
    set (e := Nat.iter n (next c) e0).
    assert (He : e ∈ edges c) by by apply (iter_edge c Hwf).
    pose proof (edge_vertex c Hwf e0 He0). pose proof (edge_vertex c Hwf e He).
    pose proof (edge_target c Hwf e He).
    destruct (edge_ok_of c Hwf e He) as (_ & _ & _ & Hloop & _).
    assert (Hd1 : e.1 ≠ e0.1) by (apply (Hs n); lia).
    assert (Hd2 : tgt c e ≠ e0.1).
    { change (tgt c e) with (Nat.iter (S n) (next c) e0).1. apply Hs. lia. }
    unfold tri_ok, tri_of. simpl. repeat split; try lia; congruence.
Qed.

Lemma vertex_faces_tris ii st :
  1 <= ii < p c → walk_inv show c points st → closed c (ws_marks st) →
  Forall (tri_ok c) (ws_tris st) →
  ∃ st',
    vertex_faces show c points fuel ii st = Ok st' ∧
    walk_inv show c points st' ∧ closed c (ws_marks st') ∧
    Forall (tri_ok c) (ws_tris st').
Proof.
  intros Hii Hinv Hcl Htris. unfold vertex_faces.
  rewrite (nu_lookup c Hwf ii) by lia. cbn [ub bind].
  apply (for_each_inv
           (λ _ s, walk_inv show c points s ∧ closed c (ws_marks s) ∧
                   Forall (tri_ok c) (ws_tris s))); [done|].
  intros done jj s (Hi & Hc & Ht) Hjj. apply elem_of_seqZ in Hjj.
  apply (face_start_tris s (ii, jj)); [done|done| |simpl; lia|done].
  apply (elem_of_edges c Hwf). lia.
Qed.

Lemma extract_faces_tris :
  ∃ st,
    extract_faces show c points fuel = Ok st ∧
    Forall (tri_ok c) (ws_tris st).
Proof.
  unfold extract_faces.
  destruct (walk_inv_init show c points Hwf Hpoints) as [Hi0 Hc0].
  destruct (for_each_inv
              (λ _ s, walk_inv show c points s ∧ closed c (ws_marks s) ∧
                      Forall (tri_ok c) (ws_tris s))
              (vertex_faces show c points fuel) (seqZ 1 (p c - 1))
              (init_walk c))
    as (st & Hrun & _ & _ & Ht).
  - split; [done|]. split; [done|]. constructor.
  - intros done ii s (Hi & Hc & Ht) Hii. apply elem_of_seqZ in Hii.
    apply vertex_faces_tris; [lia|done..].
  - by exists st.
Qed.
End Triangles.

(** X8. Every triangle [(ii, kk, mm)] that the traversal of a well-formed
    cell emits has three different vertices of the cell, and its first
    vertex is never vertex 0. *)
Theorem triangles_are_proper {P} (show : P -> string) c pts fuel :
  wf_cell c →
  p c <= Z.of_nat (length pts) →
  (length (edges c) <= fuel)%nat →
  ∃ st,
    extract_faces show c pts fuel = Ok st ∧
    Forall (tri_ok c) (ws_tris st).
Proof. intros. by apply extract_faces_tris. Qed.

Lemma triangles_are_proper_cube :
  ∃ st,
    extract_faces (λ s : string, s) cube cube_points 24 = Ok st ∧
    Forall (tri_ok cube) (ws_tris st).
Proof.
  apply (triangles_are_proper (λ s : string, s) cube cube_points 24).
  - exact cube_wf.
  - vm_compute. discriminate.
  - vm_compute. lia.
Defined.

(** ** The layout of the result *)

Lemma store_middle pre old rest e :
  store (pre ++ old :: rest) (lenZ pre) e = Some (pre ++ e :: rest).
Proof.
  unfold store, lookupZ, lenZ. rewrite bool_decide_eq_true_2 by lia.
  rewrite Nat2Z.id, list_lookup_middle by done.
  f_equal. by rewrite insert_app_r_alt, Nat.sub_diag by lia.
Qed.

Lemma lenZ_snoc {A} (l : list A) a : lenZ (l ++ [a]) = lenZ l + 1.
Proof. unfold lenZ. rewrite length_app. simpl. lia. Qed.

Lemma rev2_cell_step_entry fuel L con ps id cg at_ :
  Rev2.cell_step fuel L con ps id
    {| cellGeometry := cg; cGCount := at_; points := [] |} =
  let* e := cell_entry fuel L con ps id in
  let* cg' := ub (store cg at_ e) in
  Ok {| cellGeometry := cg'; cGCount := at_ + 1; points := [] |}.
Proof.
  unfold Rev2.cell_step, cell_entry. cbn [cellGeometry cGCount points].
  destruct (compute_cell L con ps id); cbn [bind]; [|done].
  destruct (push_points _ _ _); cbn [bind]; [|done].
  by destruct (polyhedral_surface _ _ _ _).
Qed.

Lemma rev1_cell_step_text fuel L con ps id cg at_ :
  Rev1.cell_step fuel L con ps id
    {| cellGeometry := cg; cGCount := at_; points := [] |} =
  match compute_cell L con ps id with
  | Some vc =>
      let* t := cell_text1 fuel L vc (vertices L vc (pos L con ps id)) in
      let* cg' := ub (store cg at_ (Str t)) in
      Ok {| cellGeometry := cg'; cGCount := at_ + 1; points := [] |}
  | None => Ok {| cellGeometry := cg; cGCount := at_; points := [] |}
  end.
Proof.
  unfold Rev1.cell_step, cell_text1. cbn [cellGeometry cGCount points].
  destruct (compute_cell L con ps id); [|done].
  destruct (push_points _ _ _); cbn [bind]; [|done].
  by destruct (polyhedral_surface _ _ _ _).
Qed.

Lemma rev2_loop fuel L con ps : ∀ order es pre rest,
  Forall2 (λ id e, cell_entry fuel L con ps id = Ok e) order es →
  (length order <= length rest)%nat →
  ∃ s,
    for_each order (Rev2.cell_step fuel L con ps)
      {| cellGeometry := pre ++ rest; cGCount := lenZ pre; points := [] |} = Ok s ∧
    cellGeometry s = pre ++ es ++ drop (length order) rest.
Proof.
  induction order as [|id order IH]; intros es pre rest HF Hlen.
  - apply Forall2_nil_inv_l in HF as ->. eexists. split; [done|]. done.
  - apply Forall2_cons_inv_l in HF as (e & es' & He & HF & ->).
    destruct rest as [|old rest]; [simpl in Hlen; lia|].
    cbn [for_each]. rewrite rev2_cell_step_entry, He. cbn [bind].
    rewrite store_middle. cbn [ub bind].
    rewrite <- (lenZ_snoc pre e), (cons_middle e pre rest), app_assoc.
    destruct (IH es' (pre ++ [e]) rest HF) as (s & Hrun & Hcg);
      [simpl in Hlen; lia|].
    exists s. split; [done|]. rewrite Hcg. by rewrite <- app_assoc.
Qed.

Lemma rev1_loop fuel L con ps : ∀ order ts pre rest,
  Forall2 (cell_text_of fuel L con ps) (computed L con ps order) ts →
  (length ts <= length rest)%nat →
  ∃ s,
    for_each order (Rev1.cell_step fuel L con ps)
      {| cellGeometry := pre ++ rest; cGCount := lenZ pre; points := [] |} = Ok s ∧
    cellGeometry s = pre ++ (Str <$> ts) ++ drop (length ts) rest.
Proof.
  induction order as [|id order IH]; intros ts pre rest HF Hlen.
  - apply Forall2_nil_inv_l in HF as ->. eexists. split; [done|]. done.
  - unfold computed in HF. rewrite filter_cons in HF.
    cbn [for_each]. rewrite rev1_cell_step_text.
    destruct (compute_cell L con ps id) as [vc|] eqn:Hvc.
    + rewrite decide_True in HF by done.
      apply Forall2_cons_inv_l in HF as (t & ts' & (vc' & Hvc' & Ht) & HF & ->).
      rewrite Hvc in Hvc'. injection Hvc' as <-.
      destruct rest as [|old rest]; [simpl in Hlen; lia|].
      rewrite Ht. cbn [bind]. rewrite store_middle. cbn [ub bind].
      rewrite <- (lenZ_snoc pre (Str t)), (cons_middle (Str t) pre rest), app_assoc.
      destruct (IH ts' (pre ++ [Str t]) rest HF) as (s & Hrun & Hcg);
        [simpl in Hlen; lia|].
      exists s. split; [done|]. rewrite Hcg. by rewrite <- app_assoc.
    + rewrite decide_False in HF by (by intros [? ?]).
      cbn [bind]. by apply IH.
Qed.

Lemma cell_ready_text fuel L con ps id vc :
  cell_ready fuel L con ps id → compute_cell L con ps id = Some vc →
  ∃ t, cell_text1 fuel L vc (vertices L vc (pos L con ps id)) = Ok t.
Proof.
  intros Hready Hvc. destruct (Hready vc Hvc) as (Hwf & Hvs & Hfuel).
  unfold cell_text1.
  destruct (push_points_ok (Rev1.point_string L) _ _ [] Hvs) as (pts & -> & Hl).
  cbn [bind]. apply polyhedral_surface_ok; [done| |done].
  rewrite Hl. simpl. destruct Hwf as (Hnu & _).
  pose proof (Zle_0_nat (length (nu vc))). lia.
Qed.

Lemma cell_entries_exist fuel L con ps order :
  (∀ id, id ∈ order → cell_ready fuel L con ps id) →
  ∃ es, Forall2 (λ id e, cell_entry fuel L con ps id = Ok e) order es.
Proof.
  induction order as [|id order IH]; intros Hready; [by exists []|].
  destruct IH as [es HF]; [intros; apply Hready; by right|].
  assert (He : ∃ e, cell_entry fuel L con ps id = Ok e).
  { unfold cell_entry.
    destruct (compute_cell L con ps id) as [vc|] eqn:Hvc; [|by eexists].
    destruct (cell_ready_text fuel L con ps id vc) as [t Ht];
      [apply Hready; by left|done|].
    rewrite <- cell_text2_eq in Ht. unfold cell_text2 in Ht.
    destruct (push_points _ _ _); cbn [bind] in *; [|done].
    rewrite Ht. cbn [bind]. by eexists. }
  destruct He as [e He]. exists (e :: es). by constructor.
Qed.

Lemma cell_texts_exist fuel L con ps order :
  (∀ id, id ∈ order → cell_ready fuel L con ps id) →
  ∃ ts, Forall2 (cell_text_of fuel L con ps) (computed L con ps order) ts.
Proof.
  induction order as [|id order IH]; intros Hready; [by exists []|].
  destruct IH as [ts HF]; [intros; apply Hready; by right|].
  unfold computed. rewrite filter_cons.
  destruct (compute_cell L con ps id) as [vc|] eqn:Hvc.
  - rewrite decide_True by done.
    destruct (cell_ready_text fuel L con ps id vc) as [t Ht];
      [apply Hready; by left|done|].
    exists (t :: ts). constructor; [|done]. by exists vc.
  - rewrite decide_False by (by intros [? ?]). by exists ts.
Qed.

Lemma demo_cell_ready fuel con ps id :
  (24 <= fuel)%nat → cell_ready fuel demo con ps id.
Proof.
  intros Hf vc Hvc. simpl in Hvc. unfold demo_compute_cell in Hvc.
  destruct (existsb _ _); [done|]. injection Hvc as <-.
  split; [exact cube_wf|]. split.
  - simpl. by destruct (demo_pos ps id) as [[? ?] ?].
  - replace (length (edges cube)) with 24%nat by (vm_compute; reflexivity).
    done.
Qed.

(** X9. The second revision fills the result in the order in which voro++
    visits the particles, one entry per visit from position 0 on: the entry
    of the visit is the cell of the visited particle or the marker, and the
    positions after the last visit keep the empty string the vector was
    created with. *)
Theorem rev2_fills_in_loop_order fuel L x y z containerRatio con :
  ¬ invalid_input x y z containerRatio →
  Rev2.make_container L x y z containerRatio = Ok con →
  (∀ id, id ∈ c_loop_order L con (particles x y z) →
     cell_ready fuel L con (particles x y z) id) →
  (length (c_loop_order L con (particles x y z)) <= length x)%nat →
  ∃ es,
    Forall2 (λ id e, cell_entry fuel L con (particles x y z) id = Ok e)
      (c_loop_order L con (particles x y z)) es ∧
    Rev2.voronoi fuel L x y z containerRatio =
      Returned (es ++ replicate (length x - length es) (Str EmptyString)).
Proof.
  intros Hv Hcon Hready Hlen.
  destruct (cell_entries_exist _ _ _ _ _ Hready) as [es HF].
  exists es. split; [done|].
  unfold Rev2.voronoi. rewrite (proj2 (check_input_None _ _ _ _) Hv), Hcon.
  cbn [bind].
  destruct (rev2_loop fuel L con (particles x y z) _ es []
              (replicate (length x) (Str EmptyString)) HF) as (s & Hrun & Hcg).
  { by rewrite length_replicate. }
  change (lenZ []) with 0 in Hrun. cbn [app] in Hrun. rewrite Hrun.
  cbn [bind finish]. rewrite Hcg. cbn [app].
  by rewrite drop_replicate, (Forall2_length _ _ _ HF).
Qed.

Lemma rev2_fills_in_loop_order_twin :
  ∃ es,
    Forall2 (λ id e, cell_entry 24 demo twin_container2
                       (particles twin_x demo_0 demo_0) id = Ok e)
      (c_loop_order demo twin_container2 (particles twin_x demo_0 demo_0)) es ∧
    Rev2.voronoi 24 demo twin_x demo_0 demo_0 2 =
      Returned (es ++ replicate (length twin_x - length es) (Str EmptyString)).
Proof.
  apply (rev2_fills_in_loop_order 24 demo twin_x demo_0 demo_0 2 twin_container2).
  - apply check_input_None. reflexivity.
  - vm_compute. reflexivity.
  - intros id _. apply demo_cell_ready. lia.
  - vm_compute. lia.
Defined.

(** X10. The first revision writes the cells it could compute one after the
    other from position 0 on, in the order of the visits, and nothing for a
    particle without a cell: the tail of the result keeps the empty strings,
    as many as there are points less the cells written. *)
Theorem rev1_packs_the_cells fuel L x y z containerRatio con :
  ¬ invalid_input x y z containerRatio →
  Rev1.make_container L x y z containerRatio = Ok con →
  (∀ id, id ∈ c_loop_order L con (particles x y z) →
     cell_ready fuel L con (particles x y z) id) →
  (length (computed L con (particles x y z)
             (c_loop_order L con (particles x y z))) <= length x)%nat →
  ∃ ts,
    Forall2 (cell_text_of fuel L con (particles x y z))
      (computed L con (particles x y z) (c_loop_order L con (particles x y z)))
      ts ∧
    Rev1.voronoi fuel L x y z containerRatio =
      Returned ((Str <$> ts) ++
                replicate (length x - length ts) (Str EmptyString)).
Proof.
  intros Hv Hcon Hready Hlen.
  destruct (cell_texts_exist _ _ _ _ _ Hready) as [ts HF].
  exists ts. split; [done|].
  unfold Rev1.voronoi. rewrite (proj2 (check_input_None _ _ _ _) Hv), Hcon.
  cbn [bind].
  destruct (rev1_loop fuel L con (particles x y z) _ ts []
              (replicate (length x) (Str EmptyString)) HF) as (s & Hrun & Hcg).
  { rewrite length_replicate, <- (Forall2_length _ _ _ HF). done. }
  change (lenZ []) with 0 in Hrun. cbn [app] in Hrun. rewrite Hrun.
  cbn [bind finish]. rewrite Hcg. cbn [app].
  by rewrite drop_replicate.
Qed.

Lemma rev1_packs_the_cells_twin :
  ∃ ts,
    Forall2 (cell_text_of 24 demo twin_container1 (particles twin_x demo_0 demo_0))
      (computed demo twin_container1 (particles twin_x demo_0 demo_0)
         (c_loop_order demo twin_container1 (particles twin_x demo_0 demo_0)))
      ts ∧
    Rev1.voronoi 24 demo twin_x demo_0 demo_0 2 =
      Returned ((Str <$> ts) ++
                replicate (length twin_x - length ts) (Str EmptyString)).
Proof.
  apply (rev1_packs_the_cells 24 demo twin_x demo_0 demo_0 2 twin_container1).
  - apply check_input_None. reflexivity.
  - vm_compute. reflexivity.
  - intros id _. apply demo_cell_ready. lia.
  - vm_compute. lia.
Defined.

Lemma store_past cg e : store cg (lenZ cg) e = None.
Proof.
  unfold store. destruct (lookupZ cg (lenZ cg)) eqn:H; [|done].
  apply lookupZ_Some in H. unfold lenZ in H. lia.
Qed.

Lemma rev2_loop_inv fuel L con ps : ∀ order pre rest s,
  for_each order (Rev2.cell_step fuel L con ps)
    {| cellGeometry := pre ++ rest; cGCount := lenZ pre; points := [] |} = Ok s →
  ∃ es,
    Forall2 (λ id e, cell_entry fuel L con ps id = Ok e) order es ∧
    (length order <= length rest)%nat ∧
    cellGeometry s = pre ++ es ++ drop (length order) rest.
Proof.
  induction order as [|id order IH]; intros pre rest s Hrun.
  - injection Hrun as <-. exists []. split; [constructor|]. split; [simpl; lia|done].
  - cbn [for_each] in Hrun. rewrite rev2_cell_step_entry in Hrun.
    destruct (cell_entry fuel L con ps id) as [e|] eqn:He; [|done].
    cbn [bind] in Hrun. destruct rest as [|old rest].
    { by rewrite app_nil_r, store_past in Hrun. }
    rewrite store_middle in Hrun. cbn [ub bind] in Hrun.
    rewrite <- (lenZ_snoc pre e), (cons_middle e pre rest), app_assoc in Hrun.
    apply IH in Hrun as (es & HF & Hlen & Hcg).
    exists (e :: es). split; [by constructor|]. split; [simpl; lia|].
    rewrite Hcg. by rewrite <- app_assoc.
Qed.

Lemma entries_texts fuel L con ps order es :
  Forall2 (λ id e, cell_entry fuel L con ps id = Ok e) order es →
  ∃ ts,
    Forall2 (cell_text_of fuel L con ps) (computed L con ps order) ts ∧
    Str <$> ts = without_markers es.
Proof.
  unfold computed, without_markers.
  induction 1 as [|id e order es He HF (ts & Hts & Heq)]; [by exists []|].
  rewrite !filter_cons. unfold cell_entry in He.
  destruct (compute_cell L con ps id) as [vc|] eqn:Hvc.
  - rewrite decide_True by done.
    pose proof (cell_text2_eq fuel L vc (vertices L vc (pos L con ps id))) as Hsame.
    unfold cell_text2 in Hsame.
    destruct (push_points _ _ _); cbn [bind] in *; [|done].
    destruct (polyhedral_surface _ _ _ _) as [t|]; cbn [bind] in *; [|done].
    injection He as <-. rewrite decide_True by done.
    exists (t :: ts). split; [|by rewrite fmap_cons, Heq].
    constructor; [|done]. by exists vc.
  - injection He as <-. rewrite decide_False by (by intros [? ?]).
    rewrite decide_False by (intros H; by apply H). by exists ts.
Qed.

(** X11. On the same container and the same visits, the loop of the first
    revision returns whenever the loop of the second does, and its result is
    the result of the second with the markers taken out: the cells move up
    to the front and as many empty strings are left at the end. *)
Theorem first_revision_drops_the_markers fuel L con ps n s2 :
  loop2 fuel L con ps n = Ok s2 →
  ∃ s1,
    loop1 fuel L con ps n = Ok s1 ∧
    cellGeometry s1 =
      without_markers (take (length (c_loop_order L con ps)) (cellGeometry s2)) ++
      replicate
        (n - length (without_markers
                       (take (length (c_loop_order L con ps)) (cellGeometry s2))))
        (Str EmptyString).
Proof.
  unfold loop1, loop2, init_loop. intros Hrun.
  apply (rev2_loop_inv fuel L con ps _ [] (replicate n (Str EmptyString)))
    in Hrun as (es & HF & Hlen & Hcg).
  rewrite Hcg. cbn [app].
  rewrite take_app_length' by (by rewrite (Forall2_length _ _ _ HF)).
  destruct (entries_texts _ _ _ _ _ _ HF) as (ts & Hts & Heq).
  rewrite <- Heq, length_fmap.
  destruct (rev1_loop fuel L con ps _ ts [] (replicate n (Str EmptyString)) Hts)
    as (s1 & Hrun1 & Hcg1).
  { rewrite length_replicate in *.
    assert (length (Str <$> ts) <= length es)%nat
      by (rewrite Heq; apply length_filter).
    rewrite length_fmap in *. rewrite <- (Forall2_length _ _ _ HF) in *. lia. }
  exists s1. split; [exact Hrun1|]. rewrite Hcg1. cbn [app].
  by rewrite drop_replicate.
Qed.

Lemma first_revision_drops_the_markers_twin :
  ∃ s2 s1,
    loop2 24 demo twin_container2 (particles twin_x demo_0 demo_0) 3 = Ok s2 ∧
    loop1 24 demo twin_container2 (particles twin_x demo_0 demo_0) 3 = Ok s1 ∧
    cellGeometry s1 =
      without_markers (take 3 (cellGeometry s2)) ++
      replicate (3 - length (without_markers (take 3 (cellGeometry s2))))
        (Str EmptyString).
Proof.
  destruct (loop2 24 demo twin_container2 (particles twin_x demo_0 demo_0) 3)
    as [s2|] eqn:H2; [|vm_compute in H2; discriminate H2].
  exists s2.
  destruct (first_revision_drops_the_markers 24 demo twin_container2
              (particles twin_x demo_0 demo_0) 3 s2 H2) as (s1 & H1 & Hcg).
  exists s1. split; [reflexivity|]. split; [exact H1|exact Hcg].
Defined.

(** ** The container and the points *)

Lemma foldl_min_spec t : ∀ m,
  (foldl (λ m cur, if Qltb cur m then cur else m) m t <= m)%Q ∧
  ∀ a, a ∈ t → (foldl (λ m cur, if Qltb cur m then cur else m) m t <= a)%Q.
Proof.
  induction t as [|c t IH]; intros m; simpl.
  - split; [apply Qle_refl|]. intros a Ha. by apply elem_of_nil in Ha.
  - destruct (Qltb c m) eqn:Hc.
    + apply Qltb_lt in Hc. destruct (IH c) as [H1 H2]. split; [lra|].
      intros a [->|Ha]%elem_of_cons; [done|auto].
    + apply Qltb_ge in Hc. destruct (IH m) as [H1 H2]. split; [done|].
      intros a [->|Ha]%elem_of_cons; [lra|auto].
Qed.

Lemma foldl_max_spec t : ∀ m,
  (m <= foldl (λ m cur, if Qltb m cur then cur else m) m t)%Q ∧
  ∀ a, a ∈ t → (a <= foldl (λ m cur, if Qltb m cur then cur else m) m t)%Q.
Proof.
  induction t as [|c t IH]; intros m; simpl.
  - split; [apply Qle_refl|]. intros a Ha. by apply elem_of_nil in Ha.
  - destruct (Qltb m c) eqn:Hc.
    + apply Qltb_lt in Hc. destruct (IH c) as [H1 H2]. split; [lra|].
      intros a [->|Ha]%elem_of_cons; [done|auto].
    + apply Qltb_ge in Hc. destruct (IH m) as [H1 H2]. split; [done|].
      intros a [->|Ha]%elem_of_cons; [lra|auto].
Qed.

Lemma vec_min_le x a : a ∈ x → (vec_min x <= a)%Q.
Proof.
  destruct x as [|b t]; [by intros ?%elem_of_nil|].
  destruct (foldl_min_spec t b) as [H1 H2].
  intros [->|Ha]%elem_of_cons; [exact H1|by apply H2].
Qed.

Lemma vec_max_ge x a : a ∈ x → (a <= vec_max x)%Q.
Proof.
  destruct x as [|b t]; [by intros ?%elem_of_nil|].
  destruct (foldl_max_spec t b) as [H1 H2].
  intros [->|Ha]%elem_of_cons; [exact H1|by apply H2].
Qed.

Lemma extent_nonneg x : (0 <= vec_max x - vec_min x)%Q.
Proof.
  destruct x as [|b t] eqn:Hx; [simpl; lra|]. rewrite <- Hx.
  assert (Hb : b ∈ x) by (rewrite Hx; left).
  pose proof (vec_min_le x b Hb). pose proof (vec_max_ge x b Hb). lra.
Qed.

Lemma conMargin_nonneg a r : (1 <= r)%Q → (r - 1 <= conMargin (axisLength a) r)%Q.
Proof.
  intros Hr. unfold conMargin. pose proof (axisLength_ge_2 a).
  assert (0 <= (axisLength a - 2) * (r - 1))%Q
    by (apply Qmult_le_0_compat; lra).
  set (h := axisLength a) in *.
  assert (E : (h * (r - 1) / 2 == (h - 2) * (r - 1) * (1 # 2) + (r - 1))%Q)
    by field.
  rewrite E. set (t := ((h - 2) * (r - 1))%Q) in *. lra.
Qed.

Lemma axis_holds a r u :
  (1 <= r)%Q → u ∈ a → (conMin a r <= u <= conMax a r)%Q.
Proof.
  intros Hr Hu. unfold conMin, conMax.
  pose proof (conMargin_nonneg a r Hr).
  pose proof (vec_min_le a u Hu). pose proof (vec_max_ge a u Hu). split; lra.
Qed.

Lemma axis_width a r :
  (1 <= r)%Q → (2 * (r - 1) <= conMax a r - conMin a r)%Q.
Proof.
  intros Hr. unfold conMin, conMax.
  pose proof (conMargin_nonneg a r Hr). pose proof (extent_nonneg a). lra.
Qed.

Lemma make_container_box L x y z r con :
  Rev1.make_container L x y z r = Ok con ∨
  Rev2.make_container L x y z r = Ok con →
  conXMin con = conMin x r ∧ conXMax con = conMax x r ∧
  conYMin con = conMin y r ∧ conYMax con = conMax y r ∧
  conZMin con = conMin z r ∧ conZMax con = conMax z r.
Proof.
  intros [Hcon|Hcon].
  - unfold Rev1.make_container in Hcon.
    destruct (Rev1.gridDims L x) as [[[? ?] ?]|]; [|done].
    injection Hcon as <-. by repeat split.
  - unfold Rev2.make_container in Hcon.
    destruct (Rev2.gridDims L x y z) as [[[? ?] ?]|]; [|done].
    injection Hcon as <-. by repeat split.
Qed.

(** X12. With a ratio of at least 1, which is what the input check lets
    through, the container that either revision builds holds every input
    point, and each of its sides is at least [2 * (containerRatio - 1)]
    long. *)
Theorem container_holds_the_points L x y z containerRatio con :
  (1 <= containerRatio)%Q →
  Rev1.make_container L x y z containerRatio = Ok con ∨
  Rev2.make_container L x y z containerRatio = Ok con →
  (∀ a b d, (a, b, d) ∈ particles x y z →
     (conXMin con <= a <= conXMax con)%Q ∧
     (conYMin con <= b <= conYMax con)%Q ∧
     (conZMin con <= d <= conZMax con)%Q) ∧
  (2 * (containerRatio - 1) <= conXMax con - conXMin con)%Q ∧
  (2 * (containerRatio - 1) <= conYMax con - conYMin con)%Q ∧
  (2 * (containerRatio - 1) <= conZMax con - conZMin con)%Q.
Proof.
  intros Hr Hcon.
  destruct (make_container_box _ _ _ _ _ _ Hcon)
    as (-> & -> & -> & -> & -> & ->).
  split; [|by repeat split; apply axis_width].
  intros a b d Hin. unfold particles in Hin.
  pose proof (elem_of_zip_r _ _ _ _ Hin) as Hd.
  apply elem_of_zip_l in Hin.
  pose proof (elem_of_zip_r _ _ _ _ Hin) as Hb.
  apply elem_of_zip_l in Hin.
  by repeat split; apply axis_holds.
Qed.

Lemma container_holds_the_points_demo :
  (∀ a b d, (a, b, d) ∈ particles demo_x demo_0 demo_0 →
     (conXMin demo_container <= a <= conXMax demo_container)%Q ∧
     (conYMin demo_container <= b <= conYMax demo_container)%Q ∧
     (conZMin demo_container <= d <= conZMax demo_container)%Q) ∧
  (2 * (2 - 1) <= conXMax demo_container - conXMin demo_container)%Q ∧
  (2 * (2 - 1) <= conYMax demo_container - conYMin demo_container)%Q ∧
  (2 * (2 - 1) <= conZMax demo_container - conZMin demo_container)%Q.
Proof.
  apply (container_holds_the_points demo demo_x demo_0 demo_0 2 demo_container).
  - vm_compute. discriminate.
  - right. vm_compute. reflexivity.
Defined.

(** X13. With a ratio of at least 1, the container has no extent along an
    axis exactly when the ratio is 1 and all points have the same coordinate
    on that axis: the floor of 2 on the side lengths enters the margin only,
    and the margin is zero at ratio 1. *)
Theorem container_is_flat_iff a containerRatio :
  (1 <= containerRatio)%Q →
  (conMax a containerRatio == conMin a containerRatio)%Q ↔
  (containerRatio == 1)%Q ∧ (vec_max a == vec_min a)%Q.
Proof.
  intros Hr. pose proof (axis_width a containerRatio Hr) as Hw.
  pose proof (conMargin_nonneg a containerRatio Hr) as Hm.
  pose proof (extent_nonneg a) as He. split.
  - intros Heq. assert (H1 : (containerRatio == 1)%Q) by lra.
    split; [done|]. unfold conMax, conMin in Heq. lra.
  - intros [H1 Heq]. unfold conMax, conMin, conMargin.
    rewrite H1, Heq. field.
Qed.

Lemma container_is_flat_iff_demo :
  (conMax demo_0 1 == conMin demo_0 1)%Q ↔
  (1 == 1)%Q ∧ (vec_max demo_0 == vec_min demo_0)%Q.
Proof.
  apply (container_is_flat_iff demo_0 1). vm_compute. discriminate.
Defined.

(** ** The grid and the number of points *)

Lemma cube_step y e :
  (0 <= y)%Q → (0 <= e)%Q → (e <= 1)%Q →
  ((y + e) * (y + e) * (y + e) <= y * y * y + e * (3 * (y * y) + 3 * y + 1))%Q.
Proof.
  intros Hy He0 He1.
  assert (H : (0 <= e * (3 * (y * (1 - e)) + (1 - e) * (1 + e)))%Q).
  { apply Qmult_le_0_compat; [done|].
    assert (0 <= y * (1 - e))%Q by (apply Qmult_le_0_compat; lra).
    assert (0 <= (1 - e) * (1 + e))%Q by (apply Qmult_le_0_compat; lra).
    set (a := (y * (1 - e))%Q) in *. set (b := ((1 - e) * (1 + e))%Q) in *. lra. }
  apply Qle_minus_iff.
  setoid_replace (y * y * y + e * (3 * (y * y) + 3 * y + 1) +
                  - ((y + e) * (y + e) * (y + e)))%Q
    with (e * (3 * (y * (1 - e)) + (1 - e) * (1 + e)))%Q using relation Qeq
    by ring.
  done.
Qed.

Lemma cube_mono c h : (0 <= c)%Q → (c <= h)%Q → (c * c * c <= h * h * h)%Q.
Proof.
  intros Hc Hle.
  apply Qmult_le_compat_nonneg; [|by split].
  split; [by apply Qmult_le_0_compat|].
  by apply Qmult_le_compat_nonneg.
Qed.

Lemma cbrt_nonneg L q : cbrt_lower L → (0 <= q)%Q → (0 <= cbrt L q)%Q.
Proof. intros HL Hq. apply HL; lra. Qed.

(** A cube root that is not below the rationals whose cube the argument
    bounds has a cube of at least the argument. *)
Lemma cbrt_cube_ge L q :
  cbrt_lower L → (0 <= q)%Q → (q <= cbrt L q * cbrt L q * cbrt L q)%Q.
Proof.
  intros HL Hq. pose proof (cbrt_nonneg L q HL Hq) as Hy.
  set (y := cbrt L q) in *. apply Qnot_lt_le. intros Hlt.
  set (d := (3 * (y * y) + 3 * y + 1)%Q).
  assert (Hd : (0 < d)%Q).
  { assert (0 <= y * y)%Q by (by apply Qmult_le_0_compat).
    unfold d. set (yy := (y * y)%Q) in *. lra. }
  set (g := (q - y * y * y)%Q).
  assert (Hg : (0 < g)%Q) by (unfold g; lra).
  assert (Hgd : (0 < g / d)%Q).
  { apply Qlt_shift_div_l; [done|]. by rewrite Qmult_0_l. }
  set (e := Qmin 1 (g / d)).
  assert (He1 : (e <= 1)%Q) by apply Q.le_min_l.
  assert (He0 : (0 < e)%Q) by (apply Q.min_glb_lt; [lra|done]).
  assert (Hed : (e * d <= g)%Q).
  { apply Qle_trans with (g / d * d)%Q.
    - apply Qmult_le_compat_r; [apply Q.le_min_r|lra].
    - assert (E : (g / d * d == g)%Q) by (field; lra). rewrite E. apply Qle_refl. }
  pose proof (cube_step y e Hy (Qlt_le_weak _ _ He0) He1) as Hstep.
  fold d in Hstep.
  assert (Hc : ((y + e) * (y + e) * (y + e) <= q)%Q).
  { unfold g in Hed. set (ed := (e * d)%Q) in *.
    set (yyy := (y * y * y)%Q) in *.
    set (lhs := ((y + e) * (y + e) * (y + e))%Q) in *. lra. }
  assert (Hle : (y + e <= y)%Q) by (apply HL; [lra|done]).
  lra.
Qed.

Lemma double_to_int_above q t :
  (0 <= q)%Q → double_to_int (q + 1)%Q = Ok t → (q < inject_Z t)%Q.
Proof.
  intros Hq. unfold double_to_int. rewrite Qtrunc_floor by lra.
  destruct (_ && _); [|done]. intros Heq.
  assert (Ht : Qfloor (q + 1) = t) by congruence. rewrite <- Ht.
  pose proof (Qlt_floor (q + 1)) as H. rewrite inject_Z_plus in H.
  change (inject_Z 1) with 1%Q in H.
  set (f := inject_Z (Qfloor (q + 1))) in *. lra.
Qed.

Lemma lenZ_nonneg {A} (l : list A) : 0 <= lenZ l.
Proof. unfold lenZ. lia. Qed.

Lemma density_volume x y z :
  (Rev2.density x y z * ((56 # 10) * axisLength x * axisLength y * axisLength z)
   == inject_Z (lenZ x))%Q.
Proof.
  unfold Rev2.density.
  pose proof (axisLength_ge_2 x). pose proof (axisLength_ge_2 y).
  pose proof (axisLength_ge_2 z).
  assert (Hd : (0 < (56 # 10) * axisLength x * axisLength y * axisLength z)%Q).
  { repeat apply Qmult_lt_0_compat; lra. }
  field. lra.
Qed.

Lemma density_nonneg x y z : (0 <= Rev2.density x y z)%Q.
Proof.
  unfold Rev2.density.
  pose proof (axisLength_ge_2 x). pose proof (axisLength_ge_2 y).
  pose proof (axisLength_ge_2 z).
  assert (Hd : (0 < (56 # 10) * axisLength x * axisLength y * axisLength z)%Q).
  { repeat apply Qmult_lt_0_compat; lra. }
  apply Qle_shift_div_l; [done|]. rewrite Qmult_0_l.
  change 0%Q with (inject_Z 0). rewrite <- Zle_Qle. apply lenZ_nonneg.
Qed.

(** X14. The grid has room for the points. With a cube root whose cube is
    not below its argument, the blocks of the second revision number more
    than [n / 5.6], and the blocks of the first revision, when the count
    fits an [int], at least [n]. *)
Theorem grid_has_room L x y z :
  cbrt_lower L →
  (∀ nx_ ny_ nz_,
     Rev2.gridDims L x y z = Ok (nx_, ny_, nz_) →
     (inject_Z (lenZ x) < (56 # 10) * inject_Z (nx_ * ny_ * nz_))%Q) ∧
  (Qceiling (cbrt L (inject_Z (lenZ x))) <= INT_MAX →
   ∃ n1, Rev1.gridDims L x = Ok (n1, n1, n1) ∧ lenZ x <= n1 * n1 * n1).
Proof.
  intros HL. split.
  - intros nx_ ny_ nz_ Hgrid. unfold Rev2.gridDims in Hgrid.
    pose proof (cbrt_nonneg L _ HL (density_nonneg x y z)) as Hc.
    pose proof (cbrt_cube_ge L _ HL (density_nonneg x y z)) as Hcube.
    fold (Rev2.cells L x y z) in Hc, Hcube. set (c := Rev2.cells L x y z) in *.
    pose proof (axisLength_ge_2 x) as Hx. pose proof (axisLength_ge_2 y) as Hy.
    pose proof (axisLength_ge_2 z) as Hz.
    assert (Hax : (0 <= axisLength x * c)%Q) by (apply Qmult_le_0_compat; lra).
    assert (Hay : (0 <= axisLength y * c)%Q) by (apply Qmult_le_0_compat; lra).
    assert (Haz : (0 <= axisLength z * c)%Q) by (apply Qmult_le_0_compat; lra).
    destruct (double_to_int (axisLength x * c + 1)) as [tx|] eqn:Htx; [|done].
    destruct (double_to_int (axisLength y * c + 1)) as [ty|] eqn:Hty; [|done].
    destruct (double_to_int (axisLength z * c + 1)) as [tz|] eqn:Htz; [|done].
    cbn [bind] in Hgrid. injection Hgrid as <- <- <-.
    apply double_to_int_above in Htx, Hty, Htz; [|done..].
    rewrite !inject_Z_mult.
    assert (Hprod : (axisLength x * c * (axisLength y * c) * (axisLength z * c) <
                     inject_Z tx * inject_Z ty * inject_Z tz)%Q).
    { apply Qmult_lt_compat_nonneg; [|by split].
      split; [by apply Qmult_le_0_compat|].
      by apply Qmult_lt_compat_nonneg. }
    pose proof (density_volume x y z) as Hvol.
    set (v := (axisLength x * axisLength y * axisLength z)%Q).
    assert (Hv : (0 <= v)%Q).
    { unfold v. repeat apply Qmult_le_0_compat; lra. }
    assert (Hdv : (Rev2.density x y z * v <= c * c * c * v)%Q)
      by (by apply Qmult_le_compat_r).
    assert (E1 : (axisLength x * c * (axisLength y * c) * (axisLength z * c) ==
                  c * c * c * v)%Q) by (unfold v; ring).
    assert (E2 : (Rev2.density x y z *
                  ((56 # 10) * axisLength x * axisLength y * axisLength z) ==
                  (56 # 10) * (Rev2.density x y z * v))%Q) by (unfold v; ring).
    rewrite E1 in Hprod. rewrite E2 in Hvol. rewrite <- Hvol.
    set (dv := (Rev2.density x y z * v)%Q) in *.
    set (cv := (c * c * c * v)%Q) in *.
    set (t := (inject_Z tx * inject_Z ty * inject_Z tz)%Q) in *. lra.
  - intros Hfit. unfold Rev1.gridDims.
    assert (Hn : (0 <= inject_Z (lenZ x))%Q).
    { change 0%Q with (inject_Z 0). rewrite <- Zle_Qle. apply lenZ_nonneg. }
    pose proof (cbrt_nonneg L _ HL Hn) as Hc.
    pose proof (cbrt_cube_ge L _ HL Hn) as Hcube.
    pose proof (Qle_ceiling (cbrt L (inject_Z (lenZ x)))) as Hceil.
    set (y0 := cbrt L (inject_Z (lenZ x))) in *.
    set (n1 := Qceiling y0) in *.
    assert (H0 : 0 <= n1).
    { change 0 with (Qceiling 0). by apply Qceiling_resp_le. }
    unfold double_to_xlen. rewrite Qtrunc_floor, Qfloor_Z.
    2:{ change 0%Q with (inject_Z 0). rewrite <- Zle_Qle. lia. }
    unfold INT_MAX in Hfit.
    rewrite (proj2 (Z.leb_le (- 2 ^ 63) n1)) by lia.
    rewrite (proj2 (Z.ltb_lt n1 (2 ^ 63))) by lia.
    cbn [andb bind]. exists n1.
    assert (Hw : xlen_to_int n1 = n1).
    { unfold xlen_to_int. rewrite Z.mod_small; lia. }
    rewrite Hw. split; [done|].
    rewrite Zle_Qle, !inject_Z_mult.
    pose proof (cube_mono y0 (inject_Z n1) Hc Hceil) as Hm.
    set (a := (y0 * y0 * y0)%Q) in *.
    set (b := (inject_Z n1 * inject_Z n1 * inject_Z n1)%Q) in *. lra.
Qed.

Lemma grid_has_room_demo :
  (∀ nx_ ny_ nz_,
     Rev2.gridDims demo demo_x demo_0 demo_0 = Ok (nx_, ny_, nz_) →
     (inject_Z (lenZ demo_x) < (56 # 10) * inject_Z (nx_ * ny_ * nz_))%Q) ∧
  (Qceiling (cbrt demo (inject_Z (lenZ demo_x))) <= INT_MAX →
   ∃ n1, Rev1.gridDims demo demo_x = Ok (n1, n1, n1) ∧
         lenZ demo_x <= n1 * n1 * n1).
Proof. apply (grid_has_room demo demo_x demo_0 demo_0). exact cbrt_up_lower. Defined.

(** ** What a returned vector always looks like *)

Lemma for_each_preserves {S} (I : S → Prop) (body : Z → S → res S) l :
  (∀ x s s', body x s = Ok s' → I s → I s') →
  ∀ s s', for_each l body s = Ok s' → I s → I s'.
Proof.
  intros Hb. induction l as [|x l IH]; intros s s' H Hs; cbn [for_each] in H.
  - by injection H as <-.
  - destruct (body x s) as [s1|] eqn:Hx; [|done]. cbn [bind] in H.
    apply (IH s1 s' H). by apply (Hb x s).
Qed.

Lemma store_length cg at_ e cg' :
  store cg at_ e = Some cg' → length cg' = length cg.
Proof.
  unfold store. destruct (lookupZ cg at_); [|done]. intros [= <-].
  by rewrite length_insert.
Qed.

Lemma store_Forall (Q : entry → Prop) cg at_ e cg' :
  store cg at_ e = Some cg' → Forall Q cg → Q e → Forall Q cg'.
Proof.
  unfold store. destruct (lookupZ cg at_); [|done]. intros [= <-] Hall He.
  by apply Forall_insert.
Qed.

Lemma rev1_cell_step_shape fuel L con ps (n : nat) id s s' :
  Rev1.cell_step fuel L con ps id s = Ok s' →
  length (cellGeometry s) = n ∧ Forall (λ e, e ≠ NA_STRING) (cellGeometry s) →
  length (cellGeometry s') = n ∧ Forall (λ e, e ≠ NA_STRING) (cellGeometry s').
Proof.
  unfold Rev1.cell_step. intros Hstep [Hlen Hall].
  destruct (compute_cell L con ps id); [|by injection Hstep as <-].
  destruct (push_points _ _ _); cbn [bind] in Hstep; [|done].
  destruct (polyhedral_surface _ _ _ _); cbn [bind] in Hstep; [|done].
  destruct (store _ _ _) as [cg|] eqn:Hst; cbn [ub bind] in Hstep; [|done].
  injection Hstep as <-. cbn [cellGeometry]. split.
  - by rewrite (store_length _ _ _ _ Hst).
  - by apply (store_Forall _ _ _ _ _ Hst).
Qed.

Lemma rev2_cell_step_shape fuel L con ps (n : nat) id s s' :
  Rev2.cell_step fuel L con ps id s = Ok s' →
  length (cellGeometry s) = n → length (cellGeometry s') = n.
Proof.
  unfold Rev2.cell_step. intros Hstep Hlen.
  destruct (compute_cell L con ps id).
  - destruct (push_points _ _ _); cbn [bind] in Hstep; [|done].
    destruct (polyhedral_surface _ _ _ _); cbn [bind] in Hstep; [|done].
    destruct (store _ _ _) as [cg|] eqn:Hst; cbn [ub bind] in Hstep; [|done].
    injection Hstep as <-. cbn [cellGeometry].
    by rewrite (store_length _ _ _ _ Hst).
  - destruct (store _ _ _) as [cg|] eqn:Hst; cbn [ub bind] in Hstep; [|done].
    injection Hstep as <-. cbn [cellGeometry].
    by rewrite (store_length _ _ _ _ Hst).
Qed.

(** X15. Whatever the external code answers, a vector that either revision
    returns has one entry per input point, and the input was valid. *)
Theorem returned_vector_has_n_entries fuel L x y z containerRatio out :
  Rev1.voronoi fuel L x y z containerRatio = Returned out ∨
  Rev2.voronoi fuel L x y z containerRatio = Returned out →
  length out = length x ∧ ¬ invalid_input x y z containerRatio.
Proof.
  unfold Rev1.voronoi, Rev2.voronoi.
  destruct (check_input x y z containerRatio) eqn:Hc; [by intros [?|?]|].
  intros Hret. split; [|by apply check_input_None].
  destruct Hret as [Hret|Hret].
  - destruct (Rev1.make_container _ _ _ _ _) as [con|]; cbn [bind] in Hret;
      [|done].
    destruct (for_each _ _ _) as [s|] eqn:Hrun; cbn [bind finish] in Hret;
      [|done].
    injection Hret as <-.
    apply (for_each_preserves
             (λ s, length (cellGeometry s) = length x ∧
                   Forall (λ e, e ≠ NA_STRING) (cellGeometry s))) in Hrun.
    + by destruct Hrun.
    + intros id s0 s1. apply rev1_cell_step_shape.
    + cbn [cellGeometry]. split; [by rewrite length_replicate|].
      by apply Forall_replicate.
  - destruct (Rev2.make_container _ _ _ _ _) as [con|]; cbn [bind] in Hret;
      [|done].
    destruct (for_each _ _ _) as [s|] eqn:Hrun; cbn [bind finish] in Hret;
      [|done].
    injection Hret as <-.
    apply (for_each_preserves (λ s, length (cellGeometry s) = length x)) in Hrun.
    + done.
    + intros id s0 s1. apply rev2_cell_step_shape.
    + cbn [cellGeometry]. by rewrite length_replicate.
Qed.

Lemma returned_vector_has_n_entries_twin :
  ∃ out,
    Rev2.voronoi 24 demo twin_x demo_0 demo_0 2 = Returned out ∧
    length out = length twin_x ∧ ¬ invalid_input twin_x demo_0 demo_0 2.
Proof.
  destruct (Rev2.voronoi 24 demo twin_x demo_0 demo_0 2) as [?|out|?] eqn:Hrun;
    [vm_compute in Hrun; discriminate Hrun| |vm_compute in Hrun; discriminate Hrun].
  exists out. split; [reflexivity|].
  apply (returned_vector_has_n_entries 24 demo twin_x demo_0 demo_0 2 out).
  right. exact Hrun.
Defined.

(** X16. The first revision never writes the failure marker: whatever the
    external code answers, no entry of a vector it returns is [NA_STRING]. *)
Theorem rev1_returns_no_marker fuel L x y z containerRatio out :
  Rev1.voronoi fuel L x y z containerRatio = Returned out →
  Forall (λ e, e ≠ NA_STRING) out.
Proof.
  unfold Rev1.voronoi.
  destruct (check_input x y z containerRatio); [done|]. intros Hret.
  destruct (Rev1.make_container _ _ _ _ _) as [con|]; cbn [bind] in Hret;
    [|done].
  destruct (for_each _ _ _) as [s|] eqn:Hrun; cbn [bind finish] in Hret;
    [|done].
  injection Hret as <-.
  apply (for_each_preserves
           (λ s, length (cellGeometry s) = length x ∧
                 Forall (λ e, e ≠ NA_STRING) (cellGeometry s))) in Hrun.
  - by destruct Hrun.
  - intros id s0 s1. apply rev1_cell_step_shape.
  - cbn [cellGeometry]. split; [by rewrite length_replicate|].
    by apply Forall_replicate.
Qed.

Lemma rev1_returns_no_marker_echo :
  ∃ out,
    Rev1.voronoi 24 demo echo_x demo_0 demo_0 2 = Returned out ∧
    Forall (λ e, e ≠ NA_STRING) out.
Proof.
  destruct (Rev1.voronoi 24 demo echo_x demo_0 demo_0 2) as [?|out|?] eqn:Hrun;
    [vm_compute in Hrun; discriminate Hrun| |vm_compute in Hrun; discriminate Hrun].
  exists out. split; [reflexivity|].
  exact (rev1_returns_no_marker 24 demo echo_x demo_0 demo_0 2 out Hrun).
Defined.
